(** * taemno-env: secret-reference resolution over OS keychains

    A shallow embedding of the JavaScript sources

      - [src/utility.js]          ([resolveSecrets] and the pass-through helpers),
      - [src/index.js]            (class [TaemnoOS], [verifyEnvironment]),
      - [src/providers/index.js]  (the platform switch),
      - [src/providers/darwin.js] (the macOS keychain provider),

    followed by the properties of the specification that were checked
    against them.

    Conventions.  A JavaScript string is a list of code units ([ascii],
    i.e. the code units 0..255); string literals are read into such lists
    by a coercion.  An [await]ed call is a computation in a state and
    exception monad: the state is whatever the provider acts upon, a
    rejected promise is a [Throw]. *)

From Stdlib Require Import String Ascii.
From Stdlib Require DecimalString.
From Stdlib Require Import List Arith NArith Lia Bool Sorted.
Import ListNotations.

Set Implicit Arguments.

Open Scope string_scope.
Open Scope list_scope.

Definition str := list ascii.
Coercion list_ascii_of_string : string >-> list.

(* ================================================================== *)
(** * JavaScript values, errors and strings                            *)
(* ================================================================== *)

Module Js.

(** The values that reach the code under study; a number is a natural
    number here. *)
Inductive JsVal :=
| JUndefined
| JNull
| JBool (b : bool)
| JNum (n : nat)
| JStr (s : str).

(** An [Error] object: the name of its class, its message, and the
    [originalError] field of [KeychainError]. *)
Inductive JsError :=
| mkError (name message : str)
| mkErrorFrom (name message : str) (originalError : JsError).

Definition name (e : JsError) : str :=
  match e with mkError n _ | mkErrorFrom n _ _ => n end.
Definition message (e : JsError) : str :=
  match e with mkError _ m | mkErrorFrom _ m _ => m end.

(** [new Error(msg)], [new TypeError(msg)], ... *)
Definition Error (msg : str) := mkError "Error" msg.
Definition TypeError (msg : str) := mkError "TypeError" msg.
Definition ReferenceError (msg : str) := mkError "ReferenceError" msg.
Definition SyntaxError (msg : str) := mkError "SyntaxError" msg.

Inductive JsResult (A : Type) :=
| Ok (a : A)
| Throw (e : JsError).
Arguments Throw {A} e.

(** ToBoolean, as used by [if (keychain)]. *)
Definition truthy (v : JsVal) : bool :=
  match v with
  | JUndefined | JNull => false
  | JBool b => b
  | JNum n => negb (Nat.eqb n 0)
  | JStr s => match s with [] => false | _ => true end
  end.

Definition str_eqb (a b : str) : bool :=
  if list_eq_dec ascii_dec a b then true else false.

(** ** String.prototype primitives *)

(** [w.startsWith(pat)] *)
Fixpoint startsWith (pat w : str) : bool :=
  match pat, w with
  | [], _ => true
  | _ :: _, [] => false
  | p :: pat', c :: w' => Ascii.eqb p c && startsWith pat' w'
  end.

(** [w.indexOf(pat)]: position of the first occurrence. *)
Fixpoint indexOf (pat w : str) : option nat :=
  if startsWith pat w then Some 0
  else match w with
       | [] => None
       | _ :: w' => option_map S (indexOf pat w')
       end.

(** GetSubstitution (ECMA-262, 22.1.3.19.1) for a string pattern: there
    are no captures, so [$1]..[$99] and [$<] stay as written; [$$], [$&],
    [$`] and [$'] are expanded. *)
Fixpoint getSubstitution (matched before after template : str) : str :=
  match template with
  | [] => []
  | c :: t =>
      if Ascii.eqb c "$" then
        match t with
        | [] => [c]
        | d :: t' =>
            if Ascii.eqb d "$" then "$"%char :: getSubstitution matched before after t'
            else if Ascii.eqb d "&" then matched ++ getSubstitution matched before after t'
            else if Ascii.eqb d "`" then before ++ getSubstitution matched before after t'
            else if Ascii.eqb d "'" then after ++ getSubstitution matched before after t'
            else c :: getSubstitution matched before after t
        end
      else c :: getSubstitution matched before after t
  end.

(** [w.replace(pat, replacement)] with a string pattern and a string
    replacement: only the first occurrence is replaced, and the
    replacement is a template. *)
Definition replace (w pat replacement : str) : str :=
  match indexOf pat w with
  | None => w
  | Some pos =>
      let before := firstn pos w in
      let after := skipn (pos + length pat) w in
      before ++ getSubstitution pat before after replacement ++ after
  end.

(** [src.replace(/c/g, by)] for a one-character pattern [c] and a
    replacement [by] that holds no expandable [$] sequence. *)
Fixpoint replaceEach (c : ascii) (by_ : str) (src : str) : str :=
  match src with
  | [] => []
  | d :: src' =>
      if Ascii.eqb d c then by_ ++ replaceEach c by_ src'
      else d :: replaceEach c by_ src'
  end.

(** [s.split(sep)] for a one-character separator: never empty. *)
Fixpoint split (sep : ascii) (s : str) : list str :=
  match s with
  | [] => [[]]
  | c :: s' =>
      if Ascii.eqb c sep then [] :: split sep s'
      else match split sep s' with
           | [] => [[c]]
           | x :: xs => (c :: x) :: xs
           end
  end.

(** Array destructuring [const [a, b] = arr]: a missing element is
    [undefined]. *)
Definition element (arr : list str) (i : nat) : JsVal :=
  match nth_error arr i with
  | Some s => JStr s
  | None => JUndefined
  end.

(** White space and line terminators among the code units 0..255. *)
Definition isWhiteSpace (c : ascii) : bool :=
  let n := nat_of_ascii c in
  (Nat.leb 9 n && Nat.leb n 13) || Nat.eqb n 32 || Nat.eqb n 160.

Fixpoint trimStart (s : str) : str :=
  match s with
  | c :: s' => if isWhiteSpace c then trimStart s' else s
  | [] => []
  end.

(** [s.trim()] *)
Definition trim (s : str) : str := rev (trimStart (rev (trimStart s))).

Definition decimal (n : nat) : str :=
  DecimalString.NilEmpty.string_of_uint (Nat.to_uint n).

(** Template-literal interpolation of a value. *)
Definition toString (v : JsVal) : str :=
  match v with
  | JUndefined => "undefined"
  | JNull => "null"
  | JBool true => "true"
  | JBool false => "false"
  | JNum n => decimal n
  | JStr s => s
  end.

End Js.
Import Js.

(* ================================================================== *)
(** * The reference pattern                                            *)
(* ================================================================== *)

Module RegExp.

(** The pattern that both [resolveSecrets] (utility.js, line 15) and
    [verifyEnvironment] (index.js, line 82) build:
<<
new RegExp(`${prefix.replace(/\$/g, "\\$").replace(/\(/g, "\\(")}(.+?)${suffix.replace(/\)/g, "\\)")}`, "g")
>>
 *)
Definition escapePrefix (prefix : str) : str :=
  replaceEach "(" "\(" (replaceEach "$" "\$" prefix).

Definition escapeSuffix (suffix : str) : str :=
  replaceEach ")" "\)" suffix.

Definition source (prefix suffix : str) : str :=
  escapePrefix prefix ++ "(.+?)" ++ escapeSuffix suffix.

(** The fragment of the pattern grammar that is modelled: pattern
    characters, [.], an identity escape of a syntax character, and the
    lazy capture group [(.+?)].  A source outside it ([None]) is either
    rejected by [new RegExp] or uses a construct not modelled here. *)
Inductive Atom :=
| AChar (c : ascii)
| AAny
| ACapture.

Definition isSyntaxCharacter (c : ascii) : bool :=
  existsb (Ascii.eqb c) ("^$\.*+?()[]{}|" : str).

Fixpoint parse (src : str) : option (list Atom) :=
  match src with
  | [] => Some []
  | c :: t =>
      if Ascii.eqb c "\" then
        match t with
        | d :: t' =>
            if isSyntaxCharacter d || Ascii.eqb d "/"
            then option_map (cons (AChar d)) (parse t')
            else None
        | [] => None
        end
      else if Ascii.eqb c "(" then
        match t with
        | c1 :: c2 :: c3 :: c4 :: t' =>
            if Ascii.eqb c1 "." && Ascii.eqb c2 "+" && Ascii.eqb c3 "?" && Ascii.eqb c4 ")"
            then option_map (cons ACapture) (parse t')
            else None
        | _ => None
        end
      else if Ascii.eqb c "." then option_map (cons AAny) (parse t)
      else if isSyntaxCharacter c then None
      else option_map (cons (AChar c)) (parse t)
  end.

Definition compile (prefix suffix : str) : option (list Atom) :=
  parse (source prefix suffix).

(** [.] matches any code unit but a line terminator. *)
Definition isLineTerminator (c : ascii) : bool :=
  Ascii.eqb c "010" || Ascii.eqb c "013".

Definition consumed (k : nat) (r : option (nat * list str)) : option (nat * list str) :=
  match r with
  | Some (n, caps) => Some (k + n, caps)
  | None => None
  end.

(** The lazy group [(.+?)] before the rest of the pattern: it takes one
    code unit, tries the rest, and only takes another unit when the rest
    fails. *)
Fixpoint lazyPlus (rest : str -> option (nat * list str)) (s : str)
  : option (nat * list str) :=
  match s with
  | [] => None
  | d :: s' =>
      if isLineTerminator d then None
      else match rest s' with
           | Some (n, caps) => Some (1 + n, [d] :: caps)
           | None =>
               match lazyPlus rest s' with
               | Some (n, cap :: caps) => Some (1 + n, (d :: cap) :: caps)
               | _ => None
               end
           end
  end.

(** Backtracking match of the atoms at the head of [s]: the number of
    code units consumed and the text of each capture group. *)
Fixpoint matchHere (atoms : list Atom) (s : str) {struct atoms} : option (nat * list str) :=
  match atoms with
  | [] => Some (0, [])
  | AChar c :: rest =>
      match s with
      | d :: s' => if Ascii.eqb c d then consumed 1 (matchHere rest s') else None
      | [] => None
      end
  | AAny :: rest =>
      match s with
      | d :: s' => if isLineTerminator d then None else consumed 1 (matchHere rest s')
      | [] => None
      end
  | ACapture :: rest => lazyPlus (matchHere rest) s
  end.

(** What [regex.exec] returns: [match.index], [match[0]], [match[1]]. *)
Record Match := mkMatch { index : nat; fullMatch : str; path : str }.

(** The successive results of [regex.exec(value)] for a global pattern,
    from [lastIndex = 0] until it returns [null] (which resets
    [lastIndex]): at each position the pattern is tried; after a match
    the search resumes where the match ended.  [skip] counts the code
    units of the last match that are still to be passed over. *)
Fixpoint scan (atoms : list Atom) (s : str) (idx skip : nat) : list Match :=
  match s with
  | [] => []
  | _ :: s' =>
      match skip with
      | S k => scan atoms s' (S idx) k
      | 0 =>
          match matchHere atoms s with
          | Some (n, caps) =>
              mkMatch idx (firstn n s) (hd [] caps) :: scan atoms s' (S idx) (pred n)
          | None => scan atoms s' (S idx) 0
          end
      end
  end.

Definition allMatches (atoms : list Atom) (value : str) : list Match :=
  scan atoms value 0 0.

(** The same loop with [lastIndex] spelled out.  [search] is the first
    position from [i] on at which the pattern matches. *)
Fixpoint search (atoms : list Atom) (s : str) (i : nat) : option Match :=
  match matchHere atoms s with
  | Some (n, caps) => Some (mkMatch i (firstn n s) (hd [] caps))
  | None =>
      match s with
      | [] => None
      | _ :: s' => search atoms s' (S i)
      end
  end.

(** [regex.exec(value)]: the match found from [lastIndex] on, or [null],
    and the [lastIndex] it leaves in the pattern. *)
Definition exec (atoms : list Atom) (value : str) (lastIndex : nat) : option Match * nat :=
  if Nat.ltb (List.length value) lastIndex then (None, 0)
  else match search atoms (skipn lastIndex value) lastIndex with
       | Some m => (Some m, index m + List.length (fullMatch m))
       | None => (None, 0)
       end.

(** [while ((match = regex.exec(value)) !== null)]: the matches the loop
    goes through and the [lastIndex] it ends with, if it ends within
    [fuel] turns. *)
Fixpoint execLoop (fuel : nat) (atoms : list Atom) (value : str) (lastIndex : nat)
  : option (list Match * nat) :=
  match fuel with
  | 0 => None
  | S fuel' =>
      match exec atoms value lastIndex with
      | (None, lastIndex') => Some ([], lastIndex')
      | (Some m, lastIndex') =>
          match execLoop fuel' atoms value lastIndex' with
          | Some (ms, final) => Some (m :: ms, final)
          | None => None
          end
      end
  end.

End RegExp.
Import RegExp.

(* ================================================================== *)
(** * Awaited calls                                                    *)
(* ================================================================== *)

Module Async.

(** A computation over the state [S] of the outside world that either
    returns or throws; a throw keeps the state reached so far. *)
Definition M (S A : Type) : Type := S -> JsResult A * S.

Definition ret {S A} (a : A) : M S A := fun s => (Ok a, s).

Definition throw {S A} (e : JsError) : M S A := fun s => (Throw e, s).

Definition bind {S A B} (c : M S A) (k : A -> M S B) : M S B :=
  fun s =>
    match c s with
    | (Ok a, s') => k a s'
    | (Throw e, s') => (Throw e, s')
    end.

(** [try { c } catch (error) { handler(error) }] *)
Definition tryCatch {S A} (c : M S A) (handler : JsError -> M S A) : M S A :=
  fun s =>
    match c s with
    | (Ok a, s') => (Ok a, s')
    | (Throw e, s') => handler e s'
    end.

End Async.
Import Async.

Declare Scope async_scope.
Delimit Scope async_scope with async.
Notation "x <- c ;; k" := (bind c (fun x => k))
  (at level 61, c at next level, right associativity) : async_scope.
Open Scope async_scope.

(* ================================================================== *)
(** * src/utility.js                                                   *)
(* ================================================================== *)

(** The provider capability: what [require("./providers/index.js")]
    exports, or a test double. *)
Record Provider (S : Type) := mkProvider {
  set : JsVal -> JsVal -> str -> M S bool;
  get : JsVal -> JsVal -> M S str;
  exists_ : JsVal -> JsVal -> M S bool;
  delete : JsVal -> JsVal -> M S bool
}.

(** An environment object, as the list of its [Object.entries]. *)
Definition Env := list (str * JsVal).

Definition keys (env : Env) : list str := map fst env.

(** [result[key] = v] *)
Fixpoint assign (result : Env) (key : str) (v : JsVal) : Env :=
  match result with
  | [] => [(key, v)]
  | (k, x) :: rest =>
      if str_eqb k key then (k, v) :: rest else (k, x) :: assign rest key v
  end.

(** [result[key]] *)
Fixpoint lookup (result : Env) (key : str) : JsVal :=
  match result with
  | [] => JUndefined
  | (k, x) :: rest => if str_eqb k key then x else lookup rest key
  end.

(** ** The order of [Object.entries]

    An object enumerates its own string keys with the array indices
    first, in ascending numeric order, and then the other keys in the
    order in which they were created.  An array index is the canonical
    decimal form of an integer from 0 to 2^32 - 2. *)
Definition digitValue (c : ascii) : option N :=
  let n := N_of_ascii c in
  if (N.leb 48 n && N.leb n 57)%bool then Some (n - 48)%N else None.

Fixpoint decimalValue (acc : N) (s : str) : option N :=
  match s with
  | [] => Some acc
  | c :: s' =>
      match digitValue c with
      | Some d => decimalValue (acc * 10 + d)%N s'
      | None => None
      end
  end.

Definition arrayIndex (key : str) : option N :=
  match key with
  | [] => None
  | c :: rest =>
      if Ascii.eqb c "0" && negb (Nat.eqb (List.length rest) 0) then None
      else
        match decimalValue 0 key with
        | Some n => if N.ltb n 4294967295 then Some n else None
        | None => None
        end
  end.

Fixpoint insertByIndex (n : N) (kv : str * JsVal) (sorted : list (N * (str * JsVal)))
  : list (N * (str * JsVal)) :=
  match sorted with
  | [] => [(n, kv)]
  | (n', kv') :: rest =>
      if N.ltb n n' then (n, kv) :: sorted else (n', kv') :: insertByIndex n kv rest
  end.

(** The properties whose key is an array index, in ascending order. *)
Fixpoint indexed (created : Env) : list (N * (str * JsVal)) :=
  match created with
  | [] => []
  | kv :: rest =>
      match arrayIndex (fst kv) with
      | Some n => insertByIndex n kv (indexed rest)
      | None => indexed rest
      end
  end.

(** The other properties, in the order of their creation. *)
Definition named (created : Env) : Env :=
  filter (fun kv => match arrayIndex (fst kv) with Some _ => false | None => true end) created.

(** [Object.entries] of the object whose properties were created in the
    order of [created] (distinct keys). *)
Definition objectEntries (created : Env) : Env :=
  map snd (indexed created) ++ named created.

Module Utility.
Section WithState.

Variable S : Type.

Definition storeSecret (service account : JsVal) (secret : str) (provider : Provider S) : M S bool :=
  set provider service account secret.

Definition retrieveSecret (service account : JsVal) (provider : Provider S) : M S str :=
  get provider service account.

Definition secretExists (service account : JsVal) (provider : Provider S) : M S bool :=
  exists_ provider service account.

Definition deleteSecret (service account : JsVal) (provider : Provider S) : M S bool :=
  delete provider service account.

(** [const [service, account] = path.split("/")] *)
Definition service (m : Match) : JsVal := element (split "/" (path m)) 0.
Definition account (m : Match) : JsVal := element (split "/" (path m)) 1.

(** The body of the [while] loop, lines 28-37. *)
Definition resolveMatch (provider : Provider S) (key : str) (m : Match) (newValue : str)
  : M S str :=
  tryCatch
    (secret <- retrieveSecret (service m) (account m) provider ;;
     ret (replace newValue (fullMatch m) secret))
    (fun error =>
       throw (Error ("Failed to resolve secret for " ++ key ++ ": " ++ message error))).

(** [while ((match = regex.exec(value)) !== null) { ... }] over the
    successive matches of [value]. *)
Fixpoint resolveMatches (provider : Provider S) (key : str) (ms : list Match) (newValue : str)
  : M S str :=
  match ms with
  | [] => ret newValue
  | m :: ms' =>
      newValue' <- resolveMatch provider key m newValue ;;
      resolveMatches provider key ms' newValue'
  end.

(** The [for] loop over [Object.entries(result)], which are taken once,
    before the first assignment. *)
Fixpoint resolveEntries (regex : list Atom) (provider : Provider S)
         (entries : list (str * JsVal)) (result : Env) : M S Env :=
  match entries with
  | [] => ret result
  | (key, JStr value) :: entries' =>
      let ms := allMatches regex value in
      let matchFound := match ms with [] => false | _ => true end in
      newValue <- resolveMatches provider key ms value ;;
      resolveEntries regex provider entries'
        (if matchFound then assign result key (JStr newValue) else result)
  | _ :: entries' => resolveEntries regex provider entries' result
  end.

(** [resolveSecrets], once the pattern is compiled. *)
Definition resolveSecretsWith (regex : list Atom) (env : Env) (provider : Provider S) : M S Env :=
  let result := env in
  resolveEntries regex provider result result.

(** [resolveSecrets(env, prefix, suffix, provider)]; [None] when the
    pattern lies outside the modelled fragment. *)
Definition resolveSecrets (env : Env) (prefix suffix : str) (provider : Provider S)
  : option (M S Env) :=
  match compile prefix suffix with
  | Some regex => Some (resolveSecretsWith regex env provider)
  | None => None
  end.

End WithState.
End Utility.
Import Utility.

(* ================================================================== *)
(** * src/index.js                                                     *)
(* ================================================================== *)

Module TaemnoOS.

Record Options := mkOptions { envPrefix : str; envSuffix : str }.

Definition defaults : Options :=
  {| envPrefix := "$(taemno os://"; envSuffix := ")" |}.

Record MissingSecret := mkMissing { key : str; mservice : JsVal; maccount : JsVal }.

Record Verification := mkVerification {
  success : bool;
  missingSecrets : list MissingSecret
}.

Section WithState.

Variable S : Type.

Record t := mk { options : Options; provider : Provider S }.

Definition resolveEnvironment (this : t) (env : Env) : option (M S Env) :=
  resolveSecrets env (envPrefix (options this)) (envSuffix (options this)) (provider this).

Definition set (this : t) (service account : JsVal) (secret : str) : M S bool :=
  storeSecret service account secret (provider this).

Definition get (this : t) (service account : JsVal) : M S str :=
  retrieveSecret service account (provider this).

Definition exists_ (this : t) (service account : JsVal) : M S bool :=
  secretExists service account (provider this).

Definition delete (this : t) (service account : JsVal) : M S bool :=
  deleteSecret service account (provider this).

(** Lines 87-94: one turn of the [while] loop pushes at most one entry. *)
Fixpoint verifyMatches (this : t) (key : str) (ms : list Match)
         (missingSecrets : list MissingSecret) : M S (list MissingSecret) :=
  match ms with
  | [] => ret missingSecrets
  | m :: ms' =>
      found <- exists_ this (service m) (account m) ;;
      verifyMatches this key ms'
        (if negb found
         then missingSecrets ++ [mkMissing key (service m) (account m)]
         else missingSecrets)
  end.

Fixpoint verifyEntries (this : t) (regex : list Atom) (entries : list (str * JsVal))
         (missingSecrets : list MissingSecret) : M S (list MissingSecret) :=
  match entries with
  | [] => ret missingSecrets
  | (key, JStr value) :: entries' =>
      missingSecrets' <- verifyMatches this key (allMatches regex value) missingSecrets ;;
      verifyEntries this regex entries' missingSecrets'
  | _ :: entries' => verifyEntries this regex entries' missingSecrets
  end.

Definition verifyEnvironmentWith (this : t) (regex : list Atom) (env : Env) : M S Verification :=
  missingSecrets <- verifyEntries this regex env [] ;;
  ret {| success := Nat.eqb (List.length missingSecrets) 0;
         missingSecrets := missingSecrets |}.

Definition verifyEnvironment (this : t) (env : Env) : option (M S Verification) :=
  match compile (envPrefix (options this)) (envSuffix (options this)) with
  | Some regex => Some (verifyEnvironmentWith this regex env)
  | None => None
  end.

End WithState.
End TaemnoOS.

(* ================================================================== *)
(** * src/providers/index.js                                           *)
(* ================================================================== *)

Module Providers.

(** The [switch] on [os.platform()], lines 16-28.  [darwinProvider] is
    what line 7 imported; [linuxProvider] and [win32Provider] are not
    declared anywhere (their imports, lines 8-9, are comments), so
    reading them throws. *)
Definition select {P : Type} (platform : str) (darwinProvider : P) : JsResult P :=
  if str_eqb platform "darwin" then Ok darwinProvider
  else if str_eqb platform "linux" then
    Throw (ReferenceError "linuxProvider is not defined")
  else if str_eqb platform "win32" then
    Throw (ReferenceError "win32Provider is not defined")
  else Throw (Error ("Unsupported platform: " ++ platform)).

End Providers.

(* ================================================================== *)
(** * src/providers/darwin.js                                          *)
(* ================================================================== *)

Module Darwin.

Definition SECURITY_COMMAND : str := "/usr/bin/security".

Definition KeychainError (message : str) (originalError : JsError) : JsError :=
  mkErrorFrom "KeychainError" message originalError.

Definition InvalidInputError (message : str) : JsError :=
  mkError "InvalidInputError" message.

(** ** The character class of [isValidInput] *)

Inductive ClassItem :=
| CSingle (c : ascii)
| CRange (lo hi : ascii).

(** ClassRanges: an atom, a [-] and an atom form a range; any other
    atom stands for itself. *)
Fixpoint parseClass (body : str) : list ClassItem :=
  match body with
  | [] => []
  | a :: rest =>
      match rest with
      | d :: b :: rest' =>
          if Ascii.eqb d "-" then CRange a b :: parseClass rest'
          else CSingle a :: parseClass rest
      | _ => CSingle a :: parseClass rest
      end
  end.

(** The early error of ClassRanges: a range whose first bound is
    larger than its second is a SyntaxError. *)
Definition classWellFormed (items : list ClassItem) : bool :=
  forallb (fun it =>
             match it with
             | CSingle _ => true
             | CRange lo hi => Nat.leb (nat_of_ascii lo) (nat_of_ascii hi)
             end) items.

Definition classTest (items : list ClassItem) (c : ascii) : bool :=
  existsb (fun it =>
             match it with
             | CSingle a => Ascii.eqb a c
             | CRange lo hi =>
                 Nat.leb (nat_of_ascii lo) (nat_of_ascii c)
                 && Nat.leb (nat_of_ascii c) (nat_of_ascii hi)
             end) items.

(** The class as line 29 writes it, [[a-zA-Z0-9._-@#]], and as it is
    meant, with the [-] standing for itself. *)
Definition inputClassSource : str := "a-zA-Z0-9._-@#".
Definition inputClassMeant : list ClassItem := parseClass "a-zA-Z0-9._@#-".

(** What running the tool gives back to [execFile]: an exit code with
    what was written to the standard output and to the standard error,
    or a tool that could not be started, with the error number the
    [close] event then carries (negated) and the message of the [error]
    event. *)
Inductive ExecOutcome :=
| Exited (code : nat) (stdout stderr : str)
| SpawnFailed (errno : nat) (reason : str).

(** [maxBuffer], at its default of 1024 * 1024 bytes: [execFile] counts
    what arrives on a stream with [Buffer.byteLength(chunk, 'utf8')] and
    kills the child once the count exceeds the limit. *)
Definition maxBuffer : N := 1024 * 1024.

Definition byteLength (s : str) : N :=
  fold_left (fun n c => (n + if N.ltb (N_of_ascii c) 128 then 1 else 2)%N) s 0%N.

Definition overflows (s : str) : bool := N.ltb maxBuffer (byteLength s).

Definition RangeError (message : str) : JsError := mkError "RangeError" message.

Fixpoint join (sep : str) (l : list str) : str :=
  match l with
  | [] => []
  | [x] => x
  | x :: l' => x ++ sep ++ join sep l'
  end.

Section WithBackend.

(** The class the pattern of [isValidInput] compiled to. *)
Variable inputClass : list ClassItem.

(** [/usr/bin/security], acting on a machine state [W]: arguments and
    standard input in, outcome out. *)
Variable W : Type.
Variable security : list str -> str -> W -> ExecOutcome * W.

(** The state also records every invocation of the tool. *)
Record State := mkState { world : W; calls : list (list str) }.

Definition spawn (args : list str) (stdin : str) : M State ExecOutcome :=
  fun st =>
    let (outcome, w) := security args stdin (world st) in
    (Ok outcome, {| world := w; calls := calls st ++ [args] |}).

(** [promisify(execFile)]: resolves with the standard output; rejects
    when the tool cannot be started, when either stream exceeds
    [maxBuffer] (whatever the exit code) and on a non-zero exit code,
    then with the command line, a line feed and the standard error as
    the message. *)
Definition execAsync (args : list str) : M State str :=
  outcome <- spawn args [] ;;
  match outcome with
  | Exited code stdout stderr =>
      if overflows stdout then throw (RangeError "stdout maxBuffer length exceeded")
      else if overflows stderr then throw (RangeError "stderr maxBuffer length exceeded")
      else
        match code with
        | 0 => ret stdout
        | _ =>
            throw (Error ("Command failed: " ++ join " " (SECURITY_COMMAND :: args)
                          ++ ["010"%char] ++ stderr))
        end
  | SpawnFailed _ reason => throw (Error reason)
  end.

(** [input.constructor.name === 'String' && /^[...]+$/.test(input)
    && input.length <= 255]; reading [constructor] of [undefined] or
    [null] throws. *)
Definition isValidInput (input : JsVal) : JsResult bool :=
  match input with
  | JUndefined =>
      Throw (TypeError "Cannot read properties of undefined (reading 'constructor')")
  | JNull =>
      Throw (TypeError "Cannot read properties of null (reading 'constructor')")
  | JBool _ | JNum _ => Ok false
  | JStr s =>
      Ok (match s with [] => false | _ => true end
          && forallb (classTest inputClass) s
          && Nat.leb (List.length s) 255)
  end.

(** [if (!isValidInput(input)) throw new InvalidInputError(what)] *)
Definition check (input : JsVal) (what : str) : JsResult unit :=
  match isValidInput input with
  | Throw e => Throw e
  | Ok true => Ok tt
  | Ok false => Throw (InvalidInputError what)
  end.

Definition validateInputs (service account keychain : JsVal) : JsResult unit :=
  match check service "Invalid service name" with
  | Throw e => Throw e
  | Ok _ =>
      match check account "Invalid account name" with
      | Throw e => Throw e
      | Ok _ =>
          if truthy keychain then check keychain "Invalid keychain name" else Ok tt
      end
  end.

(** A synchronous call inside an [async] function. *)
Definition lift {A} (r : JsResult A) : M State A :=
  fun st => (r, st).

(** [if (keychain) args.push('-k', keychain)] *)
Definition withKeychain (args : list str) (keychain : JsVal) : list str :=
  if truthy keychain then args ++ ["-k" : str; toString keychain] else args.

(** [set]: the preliminary delete may fail without consequence; the
    secret goes to the standard input of [add-generic-password].  The
    promise sees the [close] event only: the exit code, [null] for a
    child that [execFile] killed because its output exceeded
    [maxBuffer], the negated error number for a tool that does not
    start.  Any code other than 0 is wrapped twice, by [reject] and by
    the [catch]. *)
Definition set (service account : JsVal) (secret : str) (keychain : JsVal) : M State bool :=
  _ <- lift (validateInputs service account keychain) ;;
  let args :=
    withKeychain
      ["add-generic-password" : str; "-s" : str; "'" ++ toString service ++ "'";
       "-a" : str; toString service; "-a" : str; toString account]
      keychain in
  _ <- tryCatch
         (_ <- execAsync ["delete-generic-password" : str; "-s" : str; toString service;
                          "-a" : str; toString account] ;;
          ret tt)
         (fun deleteError => ret tt) ;;
  tryCatch
    (outcome <- spawn (args ++ ["-U" : str; "-w" : str]) secret ;;
     let closed (code : str) : M State bool :=
       throw (KeychainError "Failed to store secret"
                (Error ("security command failed with code " ++ code))) in
     match outcome with
     | Exited code stdout stderr =>
         if overflows stdout || overflows stderr then closed "null"
         else
           match code with
           | 0 => ret true
           | _ => closed (decimal code)
           end
     | SpawnFailed errno _ => closed ("-" ++ decimal errno)
     end)
    (fun error => throw (KeychainError "Failed to store secret" error)).

Definition get (service account keychain : JsVal) : M State str :=
  _ <- lift (validateInputs service account keychain) ;;
  let args :=
    withKeychain
      ["find-generic-password" : str; "-s" : str; toString service;
       "-a" : str; toString account; "-w" : str]
      keychain in
  tryCatch
    (stdout <- execAsync args ;; ret (trim stdout))
    (fun error =>
       throw (KeychainError
                ("Secret not found: " ++ toString service ++ "/" ++ toString account)
                error)).

Definition exists_ (service account keychain : JsVal) : M State bool :=
  tryCatch
    (_ <- get service account keychain ;; ret true)
    (fun error => ret false).

Definition deleteSecret (service account keychain : JsVal) : M State bool :=
  _ <- lift (validateInputs service account keychain) ;;
  let args :=
    withKeychain
      ["delete-generic-password" : str; "-s" : str; toString service;
       "-a" : str; toString account]
      keychain in
  tryCatch
    (_ <- execAsync args ;; ret true)
    (fun error => ret false).

(** [module.exports]: the functions as the facade calls them, with
    [keychain] left at its default [null]. *)
Definition exports : Provider State :=
  mkProvider
    (fun service account secret => set service account secret JNull)
    (fun service account => get service account JNull)
    (fun service account => exists_ service account JNull)
    (fun service account => deleteSecret service account JNull).

End WithBackend.

(** Evaluating the module: the regular-expression literal of line 29
    is checked when the source text is parsed, so the module has
    exports only if its class is well formed. *)
Definition load (W : Type) (security : list str -> str -> W -> ExecOutcome * W)
  : JsResult (Provider (State W)) :=
  let items := parseClass inputClassSource in
  if classWellFormed items then Ok (exports items security)
  else Throw (SyntaxError
                ("Invalid regular expression: /^[" ++ inputClassSource
                 ++ "]+$/: Range out of order in character class")).

End Darwin.

(** [src/providers/index.js] as a whole: line 7 evaluates darwin.js
    before the switch is reached. *)
Definition loadProvider (W : Type) (security : list str -> str -> W -> Darwin.ExecOutcome * W)
           (platform : str) : JsResult (Provider (Darwin.State W)) :=
  match Darwin.load security with
  | Ok darwinProvider => Providers.select platform darwinProvider
  | Throw e => Throw e
  end.

(* ================================================================== *)
(** * Test doubles                                                     *)
(* ================================================================== *)

(** An idealised [/usr/bin/security], for the examples only: a keychain
    is a list of generic passwords keyed by service and account.  As in
    the tool, the last occurrence of an option wins, [-w] in last place
    takes the password from the standard input, exit code 44 reports a
    missing item and 45 a duplicate one. *)
Module Keychain.

Import Darwin.

Record Item := mkItem { iservice : str; iaccount : str; password : str }.

Definition t := list Item.

Record Parsed := mkParsed {
  s_opt : str; a_opt : str; w_opt : option str; U_opt : bool
}.

Fixpoint options (args : list str) (stdin : str) (acc : Parsed) : Parsed :=
  match args with
  | [] => acc
  | flag :: rest =>
      if str_eqb flag "-U" then
        options rest stdin (mkParsed (s_opt acc) (a_opt acc) (w_opt acc) true)
      else
        match rest with
        | [] =>
            if str_eqb flag "-w"
            then mkParsed (s_opt acc) (a_opt acc) (Some stdin) (U_opt acc)
            else acc
        | v :: rest' =>
            if str_eqb flag "-s" then
              options rest' stdin (mkParsed v (a_opt acc) (w_opt acc) (U_opt acc))
            else if str_eqb flag "-a" then
              options rest' stdin (mkParsed (s_opt acc) v (w_opt acc) (U_opt acc))
            else if str_eqb flag "-w" then
              options rest' stdin (mkParsed (s_opt acc) (a_opt acc) (Some v) (U_opt acc))
            else options rest' stdin acc
        end
  end.

Definition same (service account : str) (it : Item) : bool :=
  str_eqb (iservice it) service && str_eqb (iaccount it) account.

Definition find (service account : str) (kc : t) : option Item :=
  List.find (same service account) kc.

Definition remove (service account : str) (kc : t) : t :=
  filter (fun it => negb (same service account it)) kc.

Definition security (args : list str) (stdin : str) (kc : t) : ExecOutcome * t :=
  match args with
  | [] => (Exited 2 [] [], kc)
  | command :: rest =>
      let o := options rest stdin (mkParsed [] [] None false) in
      if str_eqb command "add-generic-password" then
        match find (s_opt o) (a_opt o) kc, U_opt o with
        | Some _, false => (Exited 45 [] [], kc)
        | _, _ =>
            (Exited 0 [] [],
             remove (s_opt o) (a_opt o) kc
             ++ [mkItem (s_opt o) (a_opt o) (match w_opt o with Some w => w | None => [] end)])
        end
      else if str_eqb command "find-generic-password" then
        match find (s_opt o) (a_opt o) kc with
        | Some it =>
            (Exited 0 (match w_opt o with
                       | Some _ => password it ++ ["010"%char]
                       | None => "keychain item" ++ ["010"%char]
                       end) [], kc)
        | None => (Exited 44 [] [], kc)
        end
      else if str_eqb command "delete-generic-password" then
        match find (s_opt o) (a_opt o) kc with
        | Some _ => (Exited 0 [] [], remove (s_opt o) (a_opt o) kc)
        | None => (Exited 44 [] [], kc)
        end
      else (Exited 2 [] [], kc)
  end.

(** A machine on which the tool cannot be started at all. *)
Definition unavailable (args : list str) (stdin : str) (kc : t) : ExecOutcome * t :=
  (SpawnFailed 2 "spawn /usr/bin/security ENOENT", kc).

Definition start (kc : t) : State t := mkState kc [].

End Keychain.

(** Providers without state, as the mocks of the test suite. *)
Module Mock.

(** [get] answers [answer service account]; the rest succeeds. *)
Definition answering (answer : JsVal -> JsVal -> JsResult str)
           (present : JsVal -> JsVal -> bool) : Provider unit :=
  mkProvider
    (fun _ _ _ => ret true)
    (fun service account => fun st => (answer service account, st))
    (fun service account => ret (present service account))
    (fun _ _ => ret true).

Definition constant (secret : str) : Provider unit :=
  answering (fun _ _ => Ok secret) (fun _ _ => true).

Definition failing (reason : str) : Provider unit :=
  answering (fun _ _ => Throw (Error reason)) (fun _ _ => false).

(** A provider that counts its [get] calls: call number [n] (from 0)
    throws, every other call returns [secret]. *)
Definition failingAt (n : nat) (secret reason : str) : Provider nat :=
  mkProvider
    (fun _ _ _ => ret true)
    (fun _ _ => fun count =>
       (if Nat.eqb count n then Throw (Error reason) else Ok secret, Datatypes.S count))
    (fun _ _ => ret true)
    (fun _ _ => ret true).

End Mock.

Unset Implicit Arguments.

(* ================================================================== *)
(** * Vocabulary of the properties                                     *)
(* ================================================================== *)

(** [pat] occurs in [w] after the [n] code units of a prefix. *)
Definition occursAt (pat w : str) (n : nat) : Prop :=
  exists pre post, w = pre ++ pat ++ post /\ List.length pre = n.

(** What one call of [replace] does to the working value when the
    replacement is taken as it is: the first occurrence of the pattern is
    cut out and the replacement put in its place, the text before and
    after it being kept; without an occurrence nothing changes. *)
Inductive spliceFirst (pat secret : str) : str -> str -> Prop :=
| splice_hit (pre post : str) :
    (forall k, occursAt pat (pre ++ pat ++ post) k -> List.length pre <= k) ->
    spliceFirst pat secret (pre ++ pat ++ post) (pre ++ secret ++ post)
| splice_miss (w : str) :
    (forall k, ~ occursAt pat w k) ->
    spliceFirst pat secret w w.

(** The error that line 36 builds. *)
Definition resolutionError (key : str) (cause : JsError) : JsError :=
  Error ("Failed to resolve secret for " ++ key ++ ": " ++ message cause).

(** The secrets that [replace] inserts as they are: those that hold
    none of the sequences [$$], [$&], [$`] and [$'], which a replacement
    template expands. *)
Fixpoint literalSecret (secret : str) : bool :=
  match secret with
  | [] => true
  | c :: rest =>
      negb (Ascii.eqb c "$"
            && match rest with
               | d :: _ =>
                   Ascii.eqb d "$" || Ascii.eqb d "&" || Ascii.eqb d "`" || Ascii.eqb d "'"
               | [] => false
               end)
      && literalSecret rest
  end.

(** The working value of line 34 after the steps for the references
    [answers], each with the secret obtained for it. *)
Definition valueAfter (answers : list (str * Match * str)) (value : str) : str :=
  fold_left (fun w a => replace w (fullMatch (snd (fst a))) (snd a)) answers value.

Section Runs.

Variable S : Type.
Variable provider : Provider S.

(** The [get] calls for the references [refs], in order, each from the
    state that the call before it left, with the secret each returned;
    a call that throws ends the run with what it threw. *)
Fixpoint askAll (refs : list (str * Match)) : M S (list (str * Match * str)) :=
  match refs with
  | [] => ret []
  | r :: refs' =>
      secret <- get provider (service (snd r)) (account (snd r)) ;;
      rest <- askAll refs' ;;
      ret ((r, secret) :: rest)
  end.

(** A provider whose [get] succeeds whatever it is asked. *)
Definition neverFails : Prop :=
  forall service account st, exists secret st',
    get provider service account st = (Ok secret, st').

End Runs.

(** The reading of the specification: each match, in order, has every
    occurrence of its text replaced by the secret as it is. *)
Fixpoint replaceEveryOccurrence (pat secret w : str) (skip : nat) : str :=
  match w with
  | [] => []
  | c :: w' =>
      match skip with
      | Datatypes.S k => replaceEveryOccurrence pat secret w' k
      | 0 =>
          if startsWith pat w
          then secret ++ replaceEveryOccurrence pat secret w' (pred (List.length pat))
          else c :: replaceEveryOccurrence pat secret w' 0
      end
  end.

Definition resolvedAsSpecified (secretOf : Match -> str) (ms : list Match) (value : str) : str :=
  fold_left (fun w m => replaceEveryOccurrence (fullMatch m) (secretOf m) w 0) ms value.

(** The characters that the escaping of line 15 copes with: in the
    prefix, anything but a syntax character other than [$] and [(]; in
    the suffix, anything but a syntax character other than [)]. *)
Definition prefixLiteral (c : ascii) : bool :=
  negb (isSyntaxCharacter c) || Ascii.eqb c "$" || Ascii.eqb c "(".

Definition suffixLiteral (c : ascii) : bool :=
  negb (isSyntaxCharacter c) || Ascii.eqb c ")".

Definition noLineTerminator (cap : str) : Prop :=
  forallb (fun c => negb (isLineTerminator c)) cap = true.

Section Checks.

Variable S : Type.
Variable this : TaemnoOS.t S.
Variable regex : list Atom.

(** Every reference of the environment with the key it stands under:
    the entries in their order, the matches of each value from left to
    right. *)
Definition references (env : Env) : list (str * Match) :=
  flat_map (fun kv =>
              match snd kv with
              | JStr value => map (pair (fst kv)) (allMatches regex value)
              | _ => []
              end) env.

(** One existence check for each reference, in order. *)
Fixpoint checkAll (refs : list (str * Match)) : M S (list (str * Match * bool)) :=
  match refs with
  | [] => ret []
  | r :: refs' =>
      found <- exists_ (TaemnoOS.provider this) (service (snd r)) (account (snd r)) ;;
      rest <- checkAll refs' ;;
      ret ((r, found) :: rest)
  end.

(** The references whose check answered [false]. *)
Definition missingOf (checked : list (str * Match * bool)) : list TaemnoOS.MissingSecret :=
  map (fun c => TaemnoOS.mkMissing (fst (fst c)) (service (snd (fst c))) (account (snd (fst c))))
      (filter (fun c => negb (snd c)) checked).

(** What a run of checks amounts to for the caller. *)
Definition report (acc : list TaemnoOS.MissingSecret)
           (r : JsResult (list (str * Match * bool)) * S)
  : JsResult (list TaemnoOS.MissingSecret) * S :=
  match r with
  | (Ok checked, st') => (Ok (acc ++ missingOf checked), st')
  | (Throw e, st') => (Throw e, st')
  end.

End Checks.

(* ================================================================== *)
(** * Inputs of the examples                                           *)
(* ================================================================== *)

Module Examples.

(** The pattern of the default options, [/\$\(taemno os:\/\/(.+?)\)/g]. *)
Definition defaultRegex : list Atom :=
  map AChar ("$(taemno os://" : str) ++ [ACapture; AChar ")"].

Definition run {S A : Type} (c : option (M S A)) (st : S) : option (JsResult A * S) :=
  match c with
  | Some f => Some (f st)
  | None => None
  end.

(** The facade over a test double, with the default options. *)
Definition facade (provider : Provider unit) : TaemnoOS.t unit :=
  TaemnoOS.mk TaemnoOS.defaults provider.

Definition oneReference : str := "pre-$(taemno os://svc/acct)-post".

(** A reference that is followed by a reference opened twice. *)
Definition nested : str := "$(taemno os://a/b) $(taemno os://$(taemno os://a/b)".

Definition threeParts : str := "$(taemno os://a/b/c)".

End Examples.
Import Examples.

(* ================================================================== *)
(** * src/cli.js                                                       *)
(* ================================================================== *)

Module Cli.

(** A line written by [console.log] or by [console.error]. *)
Inductive Line :=
| Out (text : str)
| Err (text : str).

(** How the process ends: the lines written, in order, and the exit
    code, which is 0 when the script ends without [process.exit]. *)
Record Ended := mkEnded { lines : list Line; exitCode : nat }.

Definition nl : str := ["010"%char].

Fixpoint unlines (l : list str) : str :=
  match l with
  | [] => []
  | x :: l' => x ++ nl ++ unlines l'
  end.

Definition helpText : str :=
  nl ++ unlines
    ["@taemno/os - Secure secrets management across operating systems" : str;
     "" : str;
     "Usage:" : str;
     "  taemno-os [command] [options]" : str;
     "" : str;
     "Commands:" : str;
     "  set <service> <account> <secret>   Store a secret" : str;
     "  get <service> <account>            Retrieve a secret" : str;
     "  delete <service> <account>         Delete a secret" : str;
     "  exists <service> <account>         Check if a secret exists" : str;
     "  resolve [file]                     Resolve secrets in environment variables" : str;
     "  verify [file]                      Verify all secrets are accessible" : str;
     "  help                               Show this help message" : str;
     "" : str;
     "Examples:" : str;
     "  taemno-os set service account " ++ ["034"%char] ++ "my-secret" ++ ["034"%char];
     "  taemno-os get service account" : str;
     "  taemno-os resolve .env" : str;
     "  taemno-os verify" : str].

Section WithProvider.

Variable S : Type.

(** [require("../index.js")]: the instance with the default options,
    over the provider of the platform. *)
Variable provider : Provider S.

Definition taemnoOS : TaemnoOS.t S := TaemnoOS.mk TaemnoOS.defaults provider.

(** [process.env] and [fs.readFile(file, "utf8")]. *)
Variable processEnv : Env.
Variable readFile : str -> JsResult str.

(** A call of the facade whose pattern has to compile first. *)
Definition compiled {A : Type} (c : option (M S A)) : M S A :=
  match c with
  | Some f => f
  | None => throw (SyntaxError "Invalid regular expression")
  end.

(** [catch (error) { console.error(`Error: ${error.message}`); process.exit(1); }] *)
Definition failed (error : JsError) : Ended :=
  mkEnded [Err ("Error: " ++ message error)] 1.

Definition handleSet (args : list str) (st : S) : Ended * S :=
  match args with
  | service :: account :: secret :: _ =>
      match TaemnoOS.set taemnoOS (JStr service) (JStr account) secret st with
      | (Ok _, st') =>
          (mkEnded [Out ("Secret stored: " ++ service ++ "/" ++ account)] 0, st')
      | (Throw error, st') => (failed error, st')
      end
  | _ =>
      (mkEnded [Err "Error: Missing arguments for set command";
                Out "Usage: taemno-os set <service> <account> <secret>"] 1, st)
  end.

Definition handleGet (args : list str) (st : S) : Ended * S :=
  match args with
  | service :: account :: _ =>
      match TaemnoOS.get taemnoOS (JStr service) (JStr account) st with
      | (Ok secret, st') => (mkEnded [Out secret] 0, st')
      | (Throw error, st') => (failed error, st')
      end
  | _ =>
      (mkEnded [Err "Error: Missing arguments for get command";
                Out "Usage: taemno-os get <service> <account>"] 1, st)
  end.

Definition handleDelete (args : list str) (st : S) : Ended * S :=
  match args with
  | service :: account :: _ =>
      match TaemnoOS.delete taemnoOS (JStr service) (JStr account) st with
      | (Ok _, st') =>
          (mkEnded [Out ("Secret deleted: " ++ service ++ "/" ++ account)] 0, st')
      | (Throw error, st') => (failed error, st')
      end
  | _ =>
      (mkEnded [Err "Error: Missing arguments for delete command";
                Out "Usage: taemno-os delete <service> <account>"] 1, st)
  end.

Definition handleExists (args : list str) (st : S) : Ended * S :=
  match args with
  | service :: account :: _ =>
      match TaemnoOS.exists_ taemnoOS (JStr service) (JStr account) st with
      | (Ok found, st') =>
          (mkEnded [Out (if found then "true" else "false" : str)] (if found then 0 else 1), st')
      | (Throw error, st') => (failed error, st')
      end
  | _ =>
      (mkEnded [Err "Error: Missing arguments for exists command";
                Out "Usage: taemno-os exists <service> <account>"] 1, st)
  end.

(** Lines 300-306 and 332-338: [dotenv] is declared nowhere in the
    script, so once the file is read, [dotenv.parse] throws a
    ReferenceError inside the same [try]. *)
Definition loadEnvFile (file : str) : Ended :=
  let error :=
    match readFile file with
    | Throw e => e
    | Ok envContent => ReferenceError "dotenv is not defined"
    end in
  mkEnded [Err ("Error: Failed to read env file: " ++ message error)] 1.

Definition handleResolve (args : list str) (st : S) : Ended * S :=
  match args with
  | file :: _ => (loadEnvFile file, st)
  | [] =>
      match compiled (TaemnoOS.resolveEnvironment taemnoOS processEnv) st with
      | (Ok resolvedEnv, st') =>
          (mkEnded (map (fun kv => Out (fst kv ++ "=" ++ toString (snd kv))) resolvedEnv) 0, st')
      | (Throw error, st') => (failed error, st')
      end
  end.

Definition missingLine (m : TaemnoOS.MissingSecret) : Line :=
  Err ("  " ++ TaemnoOS.key m ++ ": " ++ toString (TaemnoOS.mservice m)
       ++ "/" ++ toString (TaemnoOS.maccount m)).

Definition handleVerify (args : list str) (st : S) : Ended * S :=
  match args with
  | file :: _ => (loadEnvFile file, st)
  | [] =>
      match compiled (TaemnoOS.verifyEnvironment taemnoOS processEnv) st with
      | (Ok result, st') =>
          if TaemnoOS.success result
          then (mkEnded [Out "All secrets are available"] 0, st')
          else (mkEnded (Err "Missing secrets:"
                           :: map missingLine (TaemnoOS.missingSecrets result)) 1, st')
      | (Throw error, st') => (failed error, st')
      end
  end.

(** The [switch] on [args[0]], for [args = process.argv.slice(2)]. *)
Definition main (args : list str) (st : S) : Ended * S :=
  match args with
  | [] => (mkEnded [Out helpText] 0, st)
  | command :: rest =>
      if str_eqb command "set" then handleSet rest st
      else if str_eqb command "get" then handleGet rest st
      else if str_eqb command "delete" then handleDelete rest st
      else if str_eqb command "exists" then handleExists rest st
      else if str_eqb command "resolve" then handleResolve rest st
      else if str_eqb command "verify" then handleVerify rest st
      else (mkEnded [Out helpText] 0, st)
  end.

End WithProvider.

End Cli.

(* ================================================================== *)
(** * More vocabulary                                                  *)
(* ================================================================== *)

(** A provider that keeps a record of the calls it receives, as the
    [mock.fn] doubles of the test suite do. *)
Module Spy.

Inductive Call :=
| CallSet (service account : JsVal) (secret : str)
| CallGet (service account : JsVal)
| CallExists (service account : JsVal)
| CallDelete (service account : JsVal).

Definition noting {S A : Type} (call : Call) (c : M S A) : M (S * list Call) A :=
  fun st =>
    let (r, s') := c (fst st) in
    (r, (s', snd st ++ [call])).

Definition recording {S : Type} (p : Provider S) : Provider (S * list Call) :=
  mkProvider
    (fun service account secret =>
       noting (CallSet service account secret) (set p service account secret))
    (fun service account => noting (CallGet service account) (get p service account))
    (fun service account => noting (CallExists service account) (exists_ p service account))
    (fun service account => noting (CallDelete service account) (delete p service account)).

Definition getOf (r : str * Match) : Call := CallGet (service (snd r)) (account (snd r)).

Definition existsOf (r : str * Match) : Call := CallExists (service (snd r)) (account (snd r)).

End Spy.

(** The matches lie one after the other: each starts at or after [from],
    the end of the one before, and ends within [size] code units. *)
Fixpoint separated (from size : nat) (ms : list Match) : Prop :=
  match ms with
  | [] => True
  | m :: ms' =>
      from <= index m
      /\ 1 <= List.length (fullMatch m)
      /\ index m + List.length (fullMatch m) <= size
      /\ separated (index m + List.length (fullMatch m)) size ms'
  end.

(** A string that does not start with white space or a line break. *)
Definition clean (l : str) : Prop :=
  match l with
  | [] => True
  | c :: _ => isWhiteSpace c = false
  end.

(** A provider whose [exists] leaves the state as it found it. *)
Definition existsReadsOnly (S : Type) (p : Provider S) : Prop :=
  forall service account st, snd (exists_ p service account st) = st.

(* ================================================================== *)
(** * Facts about the string primitives                                *)
(* ================================================================== *)

Section StringFacts.

Lemma str_eqb_eq (a b : str) : str_eqb a b = true <-> a = b.
Proof.
  unfold str_eqb. destruct (list_eq_dec ascii_dec a b); split; congruence.
Qed.

Lemma str_eqb_refl (a : str) : str_eqb a a = true.
Proof. now apply str_eqb_eq. Qed.

Lemma str_eqb_neq (a b : str) : str_eqb a b = false <-> a <> b.
Proof.
  unfold str_eqb. destruct (list_eq_dec ascii_dec a b); split; congruence.
Qed.

Lemma startsWith_app (pat post : str) : startsWith pat (pat ++ post) = true.
Proof.
  induction pat as [|p pat IH]; simpl; [reflexivity|].
  now rewrite Ascii.eqb_refl.
Qed.

Lemma startsWith_inv (pat w : str) :
  startsWith pat w = true -> exists post, w = pat ++ post.
Proof.
  revert w. induction pat as [|p pat IH]; intros w H.
  - now exists w.
  - destruct w as [|c w]; simpl in H; [discriminate|].
    apply andb_true_iff in H. destruct H as [Hc Hw].
    apply Ascii.eqb_eq in Hc. subst c.
    destruct (IH _ Hw) as [post ->]. now exists post.
Qed.

Lemma indexOf_Some (pat w : str) (n : nat) :
  indexOf pat w = Some n ->
  occursAt pat w n /\ forall k, occursAt pat w k -> n <= k.
Proof.
  revert n. induction w as [|c w IH]; intros n H; simpl in H.
  - destruct (startsWith pat []) eqn:E; [|discriminate].
    injection H as <-. split; [|intros; lia].
    destruct (startsWith_inv _ _ E) as [post ->].
    now exists [], post.
  - destruct (startsWith pat (c :: w)) eqn:E.
    + injection H as <-. split; [|intros; lia].
      destruct (startsWith_inv _ _ E) as [post ->].
      now exists [], post.
    + destruct (indexOf pat w) as [m|] eqn:Em; [|discriminate].
      simpl in H. injection H as <-.
      destruct (IH m eq_refl) as [(pre & post & -> & Hlen) Hmin].
      split.
      * exists (c :: pre), post. simpl. now rewrite Hlen.
      * intros k (pre' & post' & Heq & Hk).
        destruct pre' as [|c' pre'].
        -- simpl in Heq. rewrite Heq, startsWith_app in E. discriminate.
        -- simpl in Heq, Hk. injection Heq as -> Heq.
           assert (m <= List.length pre') by (apply Hmin; now exists pre', post').
           lia.
Qed.

Lemma indexOf_None (pat w : str) :
  indexOf pat w = None -> forall n, ~ occursAt pat w n.
Proof.
  induction w as [|c w IH]; intros H n (pre & post & Heq & Hn); simpl in H.
  - destruct (startsWith pat []) eqn:E; [discriminate|].
    destruct pre; [|discriminate].
    simpl in Heq. rewrite Heq, startsWith_app in E. discriminate.
  - destruct (startsWith pat (c :: w)) eqn:E; [discriminate|].
    destruct (indexOf pat w) eqn:Em; [discriminate|].
    destruct pre as [|c' pre].
    + simpl in Heq. rewrite Heq, startsWith_app in E. discriminate.
    + simpl in Heq. injection Heq as -> Heq.
      apply (IH eq_refl (List.length pre)). now exists pre, post.
Qed.

(** A replacement template without [$] is taken as it is. *)
Lemma getSubstitution_verbatim (matched before after template : str) :
  ~ In "$"%char template ->
  getSubstitution matched before after template = template.
Proof.
  induction template as [|c t IH]; intros H; simpl; [reflexivity|].
  destruct (Ascii.eqb c "$") eqn:E.
  - apply Ascii.eqb_eq in E. subst c. exfalso. apply H. now left.
  - f_equal. apply IH. intros Hin. apply H. now right.
Qed.

Lemma firstn_app_exact (pre rest : str) : firstn (List.length pre) (pre ++ rest) = pre.
Proof.
  induction pre; simpl; [now destruct rest | now f_equal].
Qed.

Lemma skipn_app_exact (pre rest : str) : skipn (List.length pre) (pre ++ rest) = rest.
Proof.
  induction pre; simpl; auto.
Qed.

Lemma skipn_app_both (pre pat post : str) :
  skipn (List.length pre + List.length pat) (pre ++ pat ++ post) = post.
Proof.
  rewrite <- length_app, app_assoc. apply skipn_app_exact.
Qed.

Lemma replace_spliceFirst (w pat secret : str) :
  ~ In "$"%char secret ->
  spliceFirst pat secret w (replace w pat secret).
Proof.
  intros Hs. unfold replace.
  destruct (indexOf pat w) as [n|] eqn:E.
  - destruct (indexOf_Some _ _ _ E) as [(pre & post & -> & <-) Hmin].
    rewrite getSubstitution_verbatim by assumption.
    rewrite firstn_app_exact, skipn_app_both.
    now constructor.
  - constructor. now apply indexOf_None.
Qed.

(** A replacement template without one of the four sequences is taken
    as it is, a [$] before anything else included. *)
Lemma getSubstitution_literal (matched before after template : str) :
  literalSecret template = true ->
  getSubstitution matched before after template = template.
Proof.
  induction template as [|c t IH]; intros H; [reflexivity|].
  cbn [literalSecret] in H. apply andb_true_iff in H. destruct H as [Hc Ht].
  cbn [getSubstitution].
  destruct (Ascii.eqb c "$"); [|now rewrite IH].
  destruct t as [|d t']; [reflexivity|].
  cbn [andb] in Hc.
  destruct (Ascii.eqb d "$"); [discriminate|].
  destruct (Ascii.eqb d "&"); [discriminate|].
  destruct (Ascii.eqb d "`"); [discriminate|].
  destruct (Ascii.eqb d "'"); [discriminate|].
  now rewrite IH.
Qed.

Lemma replace_literal (w pat secret : str) :
  literalSecret secret = true ->
  spliceFirst pat secret w (replace w pat secret).
Proof.
  intros Hs. unfold replace.
  destruct (indexOf pat w) as [n|] eqn:E.
  - destruct (indexOf_Some _ _ _ E) as [(pre & post & -> & <-) Hmin].
    rewrite getSubstitution_literal by assumption.
    rewrite firstn_app_exact, skipn_app_both.
    now constructor.
  - constructor. now apply indexOf_None.
Qed.

Lemma valueAfter_step (done : list (str * Match * str)) (r : str * Match) (secret value : str) :
  valueAfter (done ++ [(r, secret)]) value
  = replace (valueAfter done value) (fullMatch (snd r)) secret.
Proof.
  unfold valueAfter. now rewrite fold_left_app.
Qed.

End StringFacts.

(* ================================================================== *)
(** * Facts about environments                                         *)
(* ================================================================== *)

Section EnvFacts.

Lemma keys_assign (result : Env) (key : str) (v : JsVal) :
  In key (keys result) -> keys (assign result key v) = keys result.
Proof.
  induction result as [|[k x] rest IH]; simpl; intros H; [contradiction|].
  destruct (str_eqb k key) eqn:E; simpl; [reflexivity|].
  f_equal. apply IH. destruct H as [H|H]; [|assumption].
  apply str_eqb_neq in E. contradiction.
Qed.

Lemma lookup_assign_same (result : Env) (key : str) (v : JsVal) :
  lookup (assign result key v) key = v.
Proof.
  induction result as [|[k x] rest IH]; simpl.
  - now rewrite str_eqb_refl.
  - destruct (str_eqb k key) eqn:E; simpl; rewrite E; auto.
Qed.

Lemma lookup_assign_other (result : Env) (key k : str) (v : JsVal) :
  k <> key -> lookup (assign result key v) k = lookup result k.
Proof.
  intros Hk. induction result as [|[k' x] rest IH]; simpl.
  - destruct (str_eqb key k) eqn:E; [|reflexivity].
    apply str_eqb_eq in E. congruence.
  - destruct (str_eqb k' key) eqn:E; simpl.
    + apply str_eqb_eq in E. subst k'.
      destruct (str_eqb key k) eqn:E'; [|reflexivity].
      apply str_eqb_eq in E'. congruence.
    + now rewrite IH.
Qed.

Lemma lookup_In (env : Env) (k : str) (v : JsVal) :
  NoDup (keys env) -> In (k, v) env -> lookup env k = v.
Proof.
  induction env as [|[k' x] rest IH]; simpl; intros Hnd Hin; [contradiction|].
  inversion Hnd as [|? ? Hnotin Hnd']; subst.
  destruct Hin as [Heq|Hin].
  - injection Heq as -> ->. now rewrite str_eqb_refl.
  - destruct (str_eqb k' k) eqn:E.
    + apply str_eqb_eq in E. subst k'. exfalso. apply Hnotin.
      apply in_map_iff. now exists (k, v).
    + now apply IH.
Qed.

End EnvFacts.

(* ================================================================== *)
(** * Facts about [resolveSecrets]                                     *)
(* ================================================================== *)

Section ResolveFacts.

Variable S : Type.
Variable provider : Provider S.
Variable regex : list Atom.

Lemma resolveMatch_ok key m w st secret st' :
  get provider (service m) (account m) st = (Ok secret, st') ->
  resolveMatch provider key m w st = (Ok (replace w (fullMatch m) secret), st').
Proof.
  intros H. unfold resolveMatch, tryCatch, bind, retrieveSecret. now rewrite H.
Qed.

Lemma resolveMatch_throw key m w st cause st' :
  get provider (service m) (account m) st = (Throw cause, st') ->
  resolveMatch provider key m w st = (Throw (resolutionError key cause), st').
Proof.
  intros H. unfold resolveMatch, tryCatch, bind, retrieveSecret. now rewrite H.
Qed.

Lemma resolveMatches_throw key ms w st err st' :
  resolveMatches provider key ms w st = (Throw err, st') ->
  exists m cause st1 st2,
    In m ms
    /\ get provider (service m) (account m) st1 = (Throw cause, st2)
    /\ err = resolutionError key cause.
Proof.
  revert w st. induction ms as [|m ms IH]; intros w st H; simpl in H.
  - discriminate.
  - unfold bind in H.
    destruct (get provider (service m) (account m) st) as [[secret|cause] st1] eqn:G.
    + rewrite (resolveMatch_ok key _ w _ _ _ G) in H.
      destruct (IH _ _ H) as (m' & cause & sa & sb & Hin & Hget & Herr).
      exists m', cause, sa, sb. split; [now right | auto].
    + rewrite (resolveMatch_throw key _ w _ _ _ G) in H. injection H as <- <-.
      exists m, cause, st, st1. split; [now left | auto].
Qed.

Lemma resolveMatches_returns key ms w st :
  neverFails S provider ->
  exists w' st', resolveMatches provider key ms w st = (Ok w', st').
Proof.
  intros Hok. revert w st. induction ms as [|m ms IH]; intros w st; simpl.
  - now exists w, st.
  - unfold bind.
    destruct (Hok (service m) (account m) st) as (secret & st1 & G).
    rewrite (resolveMatch_ok key _ w _ _ _ G). apply IH.
Qed.

Lemma resolveEntries_returns entries result st :
  neverFails S provider ->
  exists final st', resolveEntries regex provider entries result st = (Ok final, st').
Proof.
  intros Hok. revert result st.
  induction entries as [|[key v] entries IH]; intros result st; simpl.
  - now exists result, st.
  - destruct v as [| | | |value]; try apply IH.
    unfold bind.
    destruct (resolveMatches_returns key (allMatches regex value) value st Hok)
      as (w & st1 & ->).
    apply IH.
Qed.

Lemma resolveEntries_throw entries result st err st' :
  resolveEntries regex provider entries result st = (Throw err, st') ->
  exists key value m cause st1 st2,
    In (key, JStr value) entries
    /\ In m (allMatches regex value)
    /\ get provider (service m) (account m) st1 = (Throw cause, st2)
    /\ err = resolutionError key cause.
Proof.
  revert result st.
  induction entries as [|[key v] entries IH]; intros result st H; simpl in H.
  - discriminate.
  - assert (Hrest : forall result' st1,
               resolveEntries regex provider entries result' st1 = (Throw err, st') ->
               exists key0 value m cause sa sb,
                 In (key0, JStr value) ((key, v) :: entries)
                 /\ In m (allMatches regex value)
                 /\ get provider (service m) (account m) sa = (Throw cause, sb)
                 /\ err = resolutionError key0 cause).
    { intros result' st1 H'.
      destruct (IH _ _ H') as (k & value & m & cause & sa & sb & Hin & Hrem).
      exists k, value, m, cause, sa, sb. split; [now right | exact Hrem]. }
    destruct v as [| | | |value]; eauto.
    unfold bind in H.
    destruct (resolveMatches provider key (allMatches regex value) value st)
      as [[w|e] st1] eqn:R.
    + eauto.
    + injection H as <- <-.
      destruct (resolveMatches_throw _ _ _ _ _ _ R) as (m & cause & sa & sb & Hin & Hget & Herr).
      exists key, value, m, cause, sa, sb. split; [now left | auto].
Qed.

Lemma resolveEntries_keys entries result st final st' :
  incl (keys entries) (keys result) ->
  resolveEntries regex provider entries result st = (Ok final, st') ->
  keys final = keys result.
Proof.
  revert result st.
  induction entries as [|[key v] entries IH]; intros result st Hincl H; simpl in H.
  - now injection H as <- <-.
  - assert (Hincl' : incl (keys entries) (keys result))
      by (intros k Hk; apply Hincl; now right).
    destruct v as [| | | |value]; try (eapply IH; eassumption).
    unfold bind in H.
    destruct (resolveMatches provider key (allMatches regex value) value st)
      as [[w|e] st1]; [|discriminate].
    destruct (allMatches regex value).
    + eapply IH; eassumption.
    + apply IH in H.
      * rewrite H. apply keys_assign, Hincl. now left.
      * rewrite keys_assign; [assumption | apply Hincl; now left].
Qed.

(** Only a string value in which the pattern matches is ever assigned. *)
Lemma resolveEntries_untouched entries result st final st' k :
  (forall value, In (k, JStr value) entries -> allMatches regex value = []) ->
  resolveEntries regex provider entries result st = (Ok final, st') ->
  lookup final k = lookup result k.
Proof.
  revert result st.
  induction entries as [|[key v] entries IH]; intros result st Hk H; simpl in H.
  - now injection H as <- <-.
  - assert (Hk' : forall value, In (k, JStr value) entries -> allMatches regex value = [])
      by (intros value Hin; apply Hk; now right).
    destruct v as [| | | |value]; try (eapply IH; eassumption).
    unfold bind in H.
    destruct (resolveMatches provider key (allMatches regex value) value st)
      as [[w|e] st1]; [|discriminate].
    destruct (allMatches regex value) eqn:A.
    + eapply IH; eassumption.
    + rewrite (IH _ _ Hk' H). apply lookup_assign_other.
      intros ->. specialize (Hk value (or_introl eq_refl)). congruence.
Qed.

Lemma resolveEntries_no_reference entries result st :
  (forall k value, In (k, JStr value) entries -> allMatches regex value = []) ->
  resolveEntries regex provider entries result st = (Ok result, st).
Proof.
  induction entries as [|[key v] entries IH]; intros Hno; simpl; [reflexivity|].
  assert (Hno' : forall k value, In (k, JStr value) entries -> allMatches regex value = [])
    by (intros k value Hin; eapply Hno; right; exact Hin).
  destruct v as [| | | |value]; auto.
  rewrite (Hno key value (or_introl eq_refl)). simpl. unfold bind, ret. auto.
Qed.

Lemma resolveEntries_app a b result st :
  resolveEntries regex provider (a ++ b) result st
  = match resolveEntries regex provider a result st with
    | (Ok mid, st1) => resolveEntries regex provider b mid st1
    | (Throw e, st1) => (Throw e, st1)
    end.
Proof.
  revert result st. induction a as [|[key v] a IH]; intros result st; simpl.
  - reflexivity.
  - destruct v as [| | | |value]; try apply IH.
    unfold bind.
    destruct (resolveMatches provider key (allMatches regex value) value st)
      as [[w|e] st1]; [apply IH | reflexivity].
Qed.

(** ** The run as a sequence of [get] calls *)

Lemma askAll_app a b st :
  askAll S provider (a ++ b) st
  = match askAll S provider a st with
    | (Ok xa, st1) =>
        match askAll S provider b st1 with
        | (Ok xb, st2) => (Ok (xa ++ xb), st2)
        | (Throw e, st2) => (Throw e, st2)
        end
    | (Throw e, st1) => (Throw e, st1)
    end.
Proof.
  revert st. induction a as [|r a IH]; intros st; simpl.
  - unfold ret. now destruct (askAll S provider b st) as [[xb|e] st2].
  - unfold bind.
    destruct (get provider (service (snd r)) (account (snd r)) st)
      as [[secret|e] st1]; [|reflexivity].
    rewrite IH.
    destruct (askAll S provider a st1) as [[xa|e] st2]; [|reflexivity].
    unfold ret. simpl.
    now destruct (askAll S provider b st2) as [[xb|e] st3].
Qed.

Lemma askAll_split refs st done r secret todo st' :
  askAll S provider refs st = (Ok (done ++ (r, secret) :: todo), st') ->
  exists sa sb,
    askAll S provider (map fst done) st = (Ok done, sa)
    /\ get provider (service (snd r)) (account (snd r)) sa = (Ok secret, sb).
Proof.
  revert refs st. induction done as [|d done IH]; intros refs st H.
  - destruct refs as [|r' refs]; simpl in H; [discriminate|].
    unfold bind in H.
    destruct (get provider (service (snd r')) (account (snd r')) st)
      as [[secret'|e] st1] eqn:G; [|discriminate].
    destruct (askAll S provider refs st1) as [[xs|e] st2]; [|discriminate].
    injection H as <- <- _ _. now exists st, st1.
  - destruct refs as [|r' refs]; simpl in H; [discriminate|].
    unfold bind in H.
    destruct (get provider (service (snd r')) (account (snd r')) st)
      as [[secret'|e] st1] eqn:G; [|discriminate].
    destruct (askAll S provider refs st1) as [[xs|e] st2] eqn:R; [|discriminate].
    injection H as <- -> <-.
    destruct (IH _ _ R) as (sa & sb & A & G').
    exists sa, sb. split; [|exact G'].
    simpl. unfold bind. now rewrite G, A.
Qed.

Lemma askAll_fst refs st answers st' :
  askAll S provider refs st = (Ok answers, st') -> map fst answers = refs.
Proof.
  revert st answers. induction refs as [|r refs IH]; intros st answers H; simpl in H.
  - now injection H as <- <-.
  - unfold bind in H.
    destruct (get provider (service (snd r)) (account (snd r)) st)
      as [[secret|e] st1]; [|discriminate].
    destruct (askAll S provider refs st1) as [[rest|e] st2] eqn:R; [|discriminate].
    injection H as <- <-. simpl. f_equal. eapply IH, R.
Qed.

(** The loop over the matches of one value, when every [get] returns. *)
Lemma resolveMatches_answered key ms w st answers st' :
  askAll S provider (map (pair key) ms) st = (Ok answers, st') ->
  resolveMatches provider key ms w st = (Ok (valueAfter answers w), st').
Proof.
  revert w st answers. induction ms as [|m ms IH]; intros w st answers H; simpl in H.
  - now injection H as <- <-.
  - unfold bind in H. simpl in H.
    destruct (get provider (service m) (account m) st) as [[secret|e] st1] eqn:G;
      [|discriminate].
    destruct (askAll S provider (map (pair key) ms) st1) as [[rest|e] st2] eqn:R;
      [|discriminate].
    injection H as <- <-.
    simpl. unfold bind. rewrite (resolveMatch_ok key _ w _ _ _ G).
    now rewrite (IH _ _ _ R).
Qed.

Lemma resolveMatches_returned key ms w st w' st' :
  resolveMatches provider key ms w st = (Ok w', st') ->
  exists answers, askAll S provider (map (pair key) ms) st = (Ok answers, st').
Proof.
  revert w st. induction ms as [|m ms IH]; intros w st H; simpl in H.
  - injection H as <- <-. now exists [].
  - unfold bind in H.
    destruct (get provider (service m) (account m) st) as [[secret|cause] sa] eqn:G.
    + rewrite (resolveMatch_ok key _ w _ _ _ G) in H.
      destruct (IH _ _ H) as (answers & A).
      exists ((key, m, secret) :: answers).
      simpl. unfold bind. simpl. now rewrite G, A.
    + rewrite (resolveMatch_throw key _ w _ _ _ G) in H. discriminate.
Qed.

(** The loop over the matches of one value, when a [get] throws after
    the ones before it returned. *)
Lemma resolveMatches_refused key ms1 m ms2 w st answers st1 cause st2 :
  askAll S provider (map (pair key) ms1) st = (Ok answers, st1) ->
  get provider (service m) (account m) st1 = (Throw cause, st2) ->
  resolveMatches provider key (ms1 ++ m :: ms2) w st
  = (Throw (resolutionError key cause), st2).
Proof.
  revert w st answers. induction ms1 as [|m1 ms1 IH]; intros w st answers H G; simpl in H.
  - injection H as <- <-. simpl. unfold bind.
    now rewrite (resolveMatch_throw key _ w _ _ _ G).
  - unfold bind in H. simpl in H.
    destruct (get provider (service m1) (account m1) st) as [[secret|e] sa] eqn:G1;
      [|discriminate].
    destruct (askAll S provider (map (pair key) ms1) sa) as [[rest|e] sb] eqn:R;
      [|discriminate].
    injection H as <- <-.
    simpl. unfold bind. rewrite (resolveMatch_ok key _ w _ _ _ G1).
    exact (IH _ _ _ R G).
Qed.

(** Where the first [get] that throws stands among the matches. *)
Lemma resolveMatches_thrown key ms w st err st' :
  resolveMatches provider key ms w st = (Throw err, st') ->
  exists ms1 m ms2 answers st1 cause,
    ms = ms1 ++ m :: ms2
    /\ askAll S provider (map (pair key) ms1) st = (Ok answers, st1)
    /\ get provider (service m) (account m) st1 = (Throw cause, st')
    /\ err = resolutionError key cause.
Proof.
  revert w st. induction ms as [|m ms IH]; intros w st H; simpl in H.
  - discriminate.
  - unfold bind in H.
    destruct (get provider (service m) (account m) st) as [[secret|cause] sa] eqn:G.
    + rewrite (resolveMatch_ok key _ w _ _ _ G) in H.
      destruct (IH _ _ H) as (ms1 & m' & ms2 & answers & st1 & cause & -> & A & G' & ->).
      exists (m :: ms1), m', ms2, ((key, m, secret) :: answers), st1, cause.
      repeat split; try assumption.
      simpl. unfold bind. simpl. rewrite G, A. reflexivity.
    + rewrite (resolveMatch_throw key _ w _ _ _ G) in H. injection H as <- <-.
      exists [], m, ms, [], st, cause. repeat split. exact G.
Qed.

(** The whole run against its [get] calls: it returns when they all
    return, and throws the error of line 36 for the first that throws. *)
Lemma resolveEntries_answered entries result st answers st' :
  askAll S provider (references regex entries) st = (Ok answers, st') ->
  exists final, resolveEntries regex provider entries result st = (Ok final, st').
Proof.
  revert result st answers.
  induction entries as [|[key v] entries IH]; intros result st answers H; simpl in *.
  - injection H as <- <-. now exists result.
  - destruct v as [| | | |value]; simpl in H; try (eapply IH; exact H).
    rewrite askAll_app in H.
    destruct (askAll S provider (map (pair key) (allMatches regex value)) st)
      as [[xa|e] st1] eqn:A; [|discriminate].
    destruct (askAll S provider (references regex entries) st1) as [[xb|e] st2] eqn:B;
      [|discriminate].
    injection H as <- <-.
    unfold bind. rewrite (resolveMatches_answered key _ value _ _ _ A).
    eapply IH. exact B.
Qed.

Lemma resolveEntries_refused entries result st asked key m rest answers st1 cause st2 :
  references regex entries = asked ++ (key, m) :: rest ->
  askAll S provider asked st = (Ok answers, st1) ->
  get provider (service m) (account m) st1 = (Throw cause, st2) ->
  resolveEntries regex provider entries result st
  = (Throw (resolutionError key cause), st2).
Proof.
  revert result st asked answers.
  induction entries as [|[k v] entries IH]; intros result st asked answers Hrefs A G;
    simpl in Hrefs.
  - destruct asked; discriminate.
  - simpl. destruct v as [| | | |value]; simpl in Hrefs; try (eapply IH; eassumption).
    unfold bind.
    apply app_eq_app in Hrefs. destruct Hrefs as [l [[H1 H2]|[H1 H2]]].
    + destruct l as [|x l].
      * rewrite app_nil_r in H1. simpl in H2. subst asked.
        rewrite (resolveMatches_answered k _ value _ _ _ A).
        apply (IH _ _ [] []); [now rewrite <- H2 | reflexivity | exact G].
      * simpl in H2. injection H2 as <- ->.
        apply map_eq_app in H1. destruct H1 as (ms1 & tl & Hms & <- & Htl).
        apply map_eq_cons in Htl. destruct Htl as (m' & ms2 & -> & Hm & _).
        injection Hm as Hk Hm'. subst k m'.
        rewrite Hms.
        now rewrite (resolveMatches_refused key ms1 m ms2 value st answers st1 cause st2 A G).
    + subst asked. rewrite askAll_app in A.
      destruct (askAll S provider (map (pair k) (allMatches regex value)) st)
        as [[xa|e] sa] eqn:A1; [|discriminate].
      destruct (askAll S provider l sa) as [[xb|e] sb] eqn:A2; [|discriminate].
      injection A as <- <-.
      rewrite (resolveMatches_answered k _ value _ _ _ A1).
      eapply IH; eassumption.
Qed.

Lemma resolveEntries_thrown entries result st err st' :
  resolveEntries regex provider entries result st = (Throw err, st') ->
  exists asked key m rest answers st1 cause,
    references regex entries = asked ++ (key, m) :: rest
    /\ askAll S provider asked st = (Ok answers, st1)
    /\ get provider (service m) (account m) st1 = (Throw cause, st')
    /\ err = resolutionError key cause.
Proof.
  revert result st.
  induction entries as [|[k v] entries IH]; intros result st H; simpl in H.
  - discriminate.
  - simpl. destruct v as [| | | |value]; simpl; try (eapply IH; exact H).
    unfold bind in H.
    destruct (resolveMatches provider k (allMatches regex value) value st)
      as [[w|e] sa] eqn:R.
    + destruct (IH _ _ H) as (asked & key & m & rest & answers & st1 & cause & Hrefs & A & G & ->).
      destruct (resolveMatches_returned k (allMatches regex value) value st w sa R)
        as (xa & A1).
      exists (map (pair k) (allMatches regex value) ++ asked), key, m, rest, (xa ++ answers),
        st1, cause.
      repeat split; try assumption.
      * now rewrite Hrefs, app_assoc.
      * now rewrite askAll_app, A1, A.
    + injection H as <- <-.
      destruct (resolveMatches_thrown k _ _ _ _ _ R)
        as (ms1 & m & ms2 & answers & st1 & cause & Hms & A & G & ->).
      exists (map (pair k) ms1), k, m,
        (map (pair k) ms2 ++ references regex entries), answers, st1, cause.
      repeat split; try assumption.
      rewrite Hms, map_app, <- app_assoc. reflexivity.
Qed.

End ResolveFacts.

(* ================================================================== *)
(** * Facts about the matcher                                          *)
(* ================================================================== *)

Section MatcherFacts.

Variable regex : list Atom.

Lemma scan_occurs (s : str) (idx skip : nat) (m : Match) :
  In m (scan regex s idx skip) ->
  exists pre post, s = pre ++ fullMatch m ++ post /\ idx + List.length pre = index m.
Proof.
  revert idx skip. induction s as [|c s IH]; intros idx skip H; simpl in H.
  - contradiction.
  - assert (Hrest : forall k, In m (scan regex s (Datatypes.S idx) k) ->
              exists pre post,
                c :: s = pre ++ fullMatch m ++ post /\ idx + List.length pre = index m).
    { intros k Hk. destruct (IH _ _ Hk) as (pre & post & -> & Hlen).
      exists (c :: pre), post. simpl. split; [reflexivity | lia]. }
    destruct skip as [|k]; [|eauto].
    destruct (matchHere regex (c :: s)) as [[n caps]|]; [|eauto].
    destruct H as [<-|H]; [|eauto].
    exists [], (skipn n (c :: s)). simpl index. simpl fullMatch.
    split; [|simpl; lia].
    now rewrite app_nil_l, firstn_skipn.
Qed.

Lemma lazyPlus_bound rest s n caps :
  (forall s' n' caps', rest s' = Some (n', caps') -> n' <= List.length s') ->
  lazyPlus rest s = Some (n, caps) ->
  1 <= n <= List.length s /\ caps <> [].
Proof.
  intros Hrest. revert n caps.
  induction s as [|d s IH]; intros n caps H; simpl in H; [discriminate|].
  destruct (isLineTerminator d); [discriminate|].
  destruct (rest s) as [[n' caps']|] eqn:R.
  - injection H as <- <-. apply Hrest in R. simpl. split; [lia | discriminate].
  - destruct (lazyPlus rest s) as [[n' [|cap caps']]|] eqn:L; try discriminate.
    injection H as <- <-. destruct (IH _ _ eq_refl) as [Hn _].
    simpl. split; [lia | discriminate].
Qed.

Lemma matchHere_bound atoms s n caps :
  matchHere atoms s = Some (n, caps) -> n <= List.length s.
Proof.
  revert s n caps.
  induction atoms as [|a atoms IH]; intros s n caps H; simpl in H.
  - injection H as <- <-. lia.
  - destruct a.
    + destruct s as [|d s]; [discriminate|].
      destruct (Ascii.eqb c d); [|discriminate].
      destruct (matchHere atoms s) as [[n' caps']|] eqn:R; [|discriminate].
      injection H as <- <-. apply IH in R. simpl. lia.
    + destruct s as [|d s]; [discriminate|].
      destruct (isLineTerminator d); [discriminate|].
      destruct (matchHere atoms s) as [[n' caps']|] eqn:R; [|discriminate].
      injection H as <- <-. apply IH in R. simpl. lia.
    + apply lazyPlus_bound in H; [lia | exact IH].
Qed.

(** A pattern with a capture group never matches the empty string, and
    [match[1]] is defined. *)
Lemma matchHere_capture atoms s n caps :
  In ACapture atoms ->
  matchHere atoms s = Some (n, caps) ->
  1 <= n /\ caps <> [].
Proof.
  revert s n caps.
  induction atoms as [|a atoms IH]; intros s n caps Hin H; [contradiction|].
  simpl in H. destruct a.
  - destruct Hin as [Hin|Hin]; [discriminate|].
    destruct s as [|d s]; [discriminate|].
    destruct (Ascii.eqb c d); [|discriminate].
    destruct (matchHere atoms s) as [[n' caps']|] eqn:R; [|discriminate].
    injection H as <- <-. destruct (IH _ _ _ Hin R). split; [lia | assumption].
  - destruct Hin as [Hin|Hin]; [discriminate|].
    destruct s as [|d s]; [discriminate|].
    destruct (isLineTerminator d); [discriminate|].
    destruct (matchHere atoms s) as [[n' caps']|] eqn:R; [|discriminate].
    injection H as <- <-. destruct (IH _ _ _ Hin R). split; [lia | assumption].
  - apply lazyPlus_bound in H; [|apply matchHere_bound].
    split; [lia | tauto].
Qed.

(** Passing over [k] code units and then scanning is scanning what is
    left. *)
Lemma scan_skip s idx k :
  scan regex s idx k = scan regex (skipn k s) (idx + k) 0.
Proof.
  revert idx k. induction s as [|c s IH]; intros idx k.
  - now destruct k.
  - destruct k as [|k].
    + simpl skipn. now rewrite Nat.add_0_r.
    + simpl. rewrite IH. f_equal. lia.
Qed.

Hypothesis has_capture : In ACapture regex.

Lemma search_scan s idx :
  match search regex s idx with
  | None => scan regex s idx 0 = []
  | Some m =>
      exists skipped tail,
        s = skipped ++ fullMatch m ++ tail
        /\ index m = idx + List.length skipped
        /\ 1 <= List.length (fullMatch m)
        /\ scan regex s idx 0
           = m :: scan regex tail (index m + List.length (fullMatch m)) 0
  end.
Proof.
  revert idx. induction s as [|c s IH]; intros idx.
  - simpl. destruct (matchHere regex []) as [[n caps]|] eqn:R; [|reflexivity].
    destruct (matchHere_capture _ _ _ _ has_capture R) as [Hn _].
    apply matchHere_bound in R. simpl in R. lia.
  - simpl. destruct (matchHere regex (c :: s)) as [[n caps]|] eqn:R.
    + destruct (matchHere_capture _ _ _ _ has_capture R) as [Hn _].
      pose proof (matchHere_bound _ _ _ _ R) as Hb.
      exists [], (skipn n (c :: s)). simpl index. simpl fullMatch.
      assert (Hlen : List.length (firstn n (c :: s)) = n)
        by (rewrite length_firstn; lia).
      rewrite Hlen. repeat split.
      * now rewrite app_nil_l, firstn_skipn.
      * simpl. lia.
      * assumption.
      * f_equal. rewrite scan_skip.
        destruct n as [|n]; [lia|]. simpl. f_equal. lia.
    + specialize (IH (Datatypes.S idx)).
      destruct (search regex s (Datatypes.S idx)) as [m|]; [|assumption].
      destruct IH as (skipped & tail & -> & Hidx & Hlen & Hscan).
      exists (c :: skipped), tail. simpl. repeat split; auto. lia.
Qed.

Lemma execLoop_scan fuel value pre s :
  value = pre ++ s ->
  List.length s < fuel ->
  execLoop fuel regex value (List.length pre) = Some (scan regex s (List.length pre) 0, 0).
Proof.
  revert pre s. induction fuel as [|fuel IH]; intros pre s Hv Hf; [lia|].
  simpl. unfold exec.
  assert (Hlt : Nat.ltb (List.length value) (List.length pre) = false).
  { apply Nat.ltb_ge. subst value. rewrite length_app. lia. }
  rewrite Hlt. subst value. rewrite skipn_app_exact.
  pose proof (search_scan s (List.length pre)) as Hs.
  destruct (search regex s (List.length pre)) as [m|].
  - destruct Hs as (skipped & tail & -> & Hidx & Hlen & Hscan).
    rewrite Hscan.
    replace (index m + List.length (fullMatch m))
      with (List.length (pre ++ skipped ++ fullMatch m))
      by (rewrite !length_app; lia).
    rewrite (IH (pre ++ skipped ++ fullMatch m) tail).
    + reflexivity.
    + now rewrite <- !app_assoc.
    + rewrite !length_app in Hf. lia.
  - now rewrite Hs.
Qed.

(** The [while] loop over [regex.exec] ends, goes through the matches of
    [allMatches] and leaves [lastIndex] at 0, as the next value finds
    it. *)
Lemma execLoop_allMatches value :
  execLoop (Datatypes.S (List.length value)) regex value 0
  = Some (allMatches regex value, 0).
Proof.
  apply (execLoop_scan _ value [] value); [reflexivity | lia].
Qed.

(** Every match is a piece of the value, found at its index. *)
Lemma allMatches_occurs (value : str) (m : Match) :
  In m (allMatches regex value) -> occursAt (fullMatch m) value (index m).
Proof.
  intros H. destruct (scan_occurs _ _ _ _ H) as (pre & post & Heq & Hlen).
  now exists pre, post.
Qed.

(** [match[1]] of a match is the text of the capture group. *)
Lemma scan_path s idx skip m :
  In m (scan regex s idx skip) ->
  exists tail n caps,
    matchHere regex (fullMatch m ++ tail) = Some (n, caps)
    /\ List.length (fullMatch m) = n
    /\ hd [] caps = path m.
Proof.
  revert idx skip. induction s as [|c s IH]; intros idx skip H; simpl in H.
  - contradiction.
  - destruct skip as [|k]; [|eauto].
    destruct (matchHere regex (c :: s)) as [[n caps]|] eqn:R; [|eauto].
    destruct H as [<-|H]; [|eauto].
    exists (skipn n (c :: s)), n, caps. simpl fullMatch. simpl path.
    rewrite firstn_skipn. split; [assumption|]. split; [|reflexivity].
    apply matchHere_bound in R. rewrite length_firstn. lia.
Qed.

End MatcherFacts.

(* ================================================================== *)
(** * Facts about the compiled pattern                                 *)
(* ================================================================== *)

Section CompileFacts.

Ltac case_parse H R :=
  match type of H with
  | context [parse ?z] => destruct (parse z) eqn:R; [|discriminate]
  end.

Lemma parse_has_capture (n : nat) :
  forall x y atoms,
    List.length x <= n ->
    parse (x ++ "(.+?)" ++ y) = Some atoms ->
    In ACapture atoms.
Proof.
  induction n as [|n IH]; intros x y atoms Hn H.
  - destruct x; [|simpl in Hn; lia]. simpl in H.
    case_parse H R. injection H as <-. now left.
  - destruct x as [|c t].
    + simpl in H. case_parse H R. injection H as <-. now left.
    + simpl in Hn. rewrite <- app_comm_cons in H. simpl in H.
      destruct (Ascii.eqb c "\").
      * destruct t as [|d t'].
        -- simpl in H. discriminate.
        -- rewrite <- app_comm_cons in H.
           destruct (isSyntaxCharacter d || Ascii.eqb d "/"); [|discriminate].
           case_parse H R. injection H as <-. right.
           apply (IH t' y); [simpl in Hn; lia | exact R].
      * destruct (Ascii.eqb c "(").
        -- match type of H with
           | context [match ?z with [] => _ | _ :: _ => _ end] =>
               destruct z as [|c1 [|c2 [|c3 [|c4 z']]]]; try discriminate
           end.
           match type of H with
           | context [if ?b then _ else _] => destruct b; [|discriminate]
           end.
           case_parse H R. injection H as <-. now left.
        -- destruct (Ascii.eqb c ".").
           ++ case_parse H R. injection H as <-. right.
              apply (IH t y); [lia | exact R].
           ++ destruct (isSyntaxCharacter c); [discriminate|].
              case_parse H R. injection H as <-. right.
              apply (IH t y); [lia | exact R].
Qed.

(** Whatever the prefix and the suffix, a pattern that compiles holds
    the capture group. *)
Lemma compile_has_capture prefix suffix atoms :
  compile prefix suffix = Some atoms -> In ACapture atoms.
Proof.
  apply (parse_has_capture (List.length (escapePrefix prefix))). lia.
Qed.

Lemma not_syntax c :
  isSyntaxCharacter c = false ->
  Ascii.eqb c "\" = false /\ Ascii.eqb c "(" = false /\ Ascii.eqb c ")" = false
  /\ Ascii.eqb c "." = false /\ Ascii.eqb c "$" = false.
Proof.
  unfold isSyntaxCharacter. simpl. intros H.
  repeat (apply orb_false_iff in H; destruct H as [? H]). auto.
Qed.

Lemma escapePrefix_cons c p :
  escapePrefix (c :: p)
  = (if Ascii.eqb c "$" then ["\"%char; "$"%char]
     else if Ascii.eqb c "(" then ["\"%char; "("%char]
     else [c]) ++ escapePrefix p.
Proof.
  unfold escapePrefix. simpl.
  destruct (Ascii.eqb c "$") eqn:D; simpl; [reflexivity|].
  now destruct (Ascii.eqb c "(").
Qed.

Lemma escapeSuffix_cons c p :
  escapeSuffix (c :: p)
  = (if Ascii.eqb c ")" then ["\"%char; ")"%char] else [c]) ++ escapeSuffix p.
Proof.
  unfold escapeSuffix. simpl. now destruct (Ascii.eqb c ")").
Qed.

Lemma parse_escape d z :
  isSyntaxCharacter d = true ->
  parse ("\"%char :: d :: z) = option_map (cons (AChar d)) (parse z).
Proof.
  intros H. simpl. now rewrite H.
Qed.

Lemma parse_plain c z :
  isSyntaxCharacter c = false ->
  parse (c :: z) = option_map (cons (AChar c)) (parse z).
Proof.
  intros H. destruct (not_syntax c H) as (B & O & _ & Dot & _).
  simpl. now rewrite B, O, Dot, H.
Qed.

Lemma parse_escaped_prefix prefix rest :
  forallb prefixLiteral prefix = true ->
  parse (escapePrefix prefix ++ rest) = option_map (app (map AChar prefix)) (parse rest).
Proof.
  induction prefix as [|c p IH]; intros H.
  - simpl. now destruct (parse rest).
  - simpl in H. apply andb_true_iff in H. destruct H as [Hc Hp].
    specialize (IH Hp). rewrite escapePrefix_cons.
    destruct (Ascii.eqb c "$") eqn:D.
    + apply Ascii.eqb_eq in D. subst c.
      change (parse ("\"%char :: "$"%char :: escapePrefix p ++ rest)
              = option_map (app (map AChar ("$"%char :: p))) (parse rest)).
      rewrite parse_escape, IH by reflexivity.
      now destruct (parse rest).
    + destruct (Ascii.eqb c "(") eqn:O.
      * apply Ascii.eqb_eq in O. subst c.
        change (parse ("\"%char :: "("%char :: escapePrefix p ++ rest)
                = option_map (app (map AChar ("("%char :: p))) (parse rest)).
        rewrite parse_escape, IH by reflexivity.
        now destruct (parse rest).
      * unfold prefixLiteral in Hc. rewrite D, O, !orb_false_r in Hc.
        apply negb_true_iff in Hc.
        change (parse (c :: escapePrefix p ++ rest)
                = option_map (app (map AChar (c :: p))) (parse rest)).
        rewrite parse_plain, IH by assumption.
        now destruct (parse rest).
Qed.

Lemma parse_escaped_suffix suffix :
  forallb suffixLiteral suffix = true ->
  parse (escapeSuffix suffix) = Some (map AChar suffix).
Proof.
  induction suffix as [|c p IH]; intros H; [reflexivity|].
  simpl in H. apply andb_true_iff in H. destruct H as [Hc Hp].
  specialize (IH Hp). rewrite escapeSuffix_cons.
  destruct (Ascii.eqb c ")") eqn:C.
  - apply Ascii.eqb_eq in C. subst c.
    change (parse ("\"%char :: ")"%char :: escapeSuffix p)
            = Some (map AChar (")"%char :: p))).
    now rewrite parse_escape, IH by reflexivity.
  - unfold suffixLiteral in Hc. rewrite C, orb_false_r in Hc.
    apply negb_true_iff in Hc.
    change (parse (c :: escapeSuffix p) = Some (map AChar (c :: p))).
    now rewrite parse_plain, IH by assumption.
Qed.

(** For such a prefix and suffix the pattern is the prefix, the capture
    group and the suffix, each character standing for itself. *)
Lemma compile_literal prefix suffix :
  forallb prefixLiteral prefix = true ->
  forallb suffixLiteral suffix = true ->
  compile prefix suffix = Some (map AChar prefix ++ ACapture :: map AChar suffix).
Proof.
  intros Hp Hs. unfold compile, source.
  rewrite parse_escaped_prefix by assumption.
  change (parse ("(.+?)" ++ escapeSuffix suffix))
    with (option_map (cons ACapture) (parse (escapeSuffix suffix))).
  now rewrite parse_escaped_suffix.
Qed.

Lemma matchHere_chars lit rest s n caps :
  matchHere (map AChar lit ++ rest) s = Some (n, caps) ->
  exists s' n',
    s = lit ++ s' /\ matchHere rest s' = Some (n', caps) /\ n = List.length lit + n'.
Proof.
  revert s n. induction lit as [|c lit IH]; intros s n H; simpl in H.
  - now exists s, n.
  - destruct s as [|d s]; [discriminate|].
    destruct (Ascii.eqb c d) eqn:E; [|discriminate].
    apply Ascii.eqb_eq in E. subst d.
    destruct (matchHere (map AChar lit ++ rest) s) as [[n0 caps0]|] eqn:R; [|discriminate].
    injection H as <- <-.
    destruct (IH _ _ R) as (s' & n' & -> & Hrest & ->).
    now exists s', n'.
Qed.

Lemma matchHere_chars_complete lit rest s' :
  matchHere (map AChar lit ++ rest) (lit ++ s')
  = consumed (List.length lit) (matchHere rest s').
Proof.
  induction lit as [|c lit IH]; simpl.
  - now destruct (matchHere rest s') as [[n caps]|].
  - rewrite Ascii.eqb_refl, IH.
    now destruct (matchHere rest s') as [[n caps]|].
Qed.

Lemma lazyPlus_sound rest s n caps :
  lazyPlus rest s = Some (n, caps) ->
  exists cap caps' s' n',
    caps = cap :: caps' /\ cap <> [] /\ noLineTerminator cap
    /\ s = cap ++ s' /\ rest s' = Some (n', caps') /\ n = List.length cap + n'.
Proof.
  revert n caps. induction s as [|d s IH]; intros n caps H; simpl in H; [discriminate|].
  destruct (isLineTerminator d) eqn:T; [discriminate|].
  destruct (rest s) as [[n0 caps0]|] eqn:R.
  - injection H as <- <-. exists [d], caps0, s, n0.
    unfold noLineTerminator. simpl. rewrite T. repeat split; auto. discriminate.
  - destruct (lazyPlus rest s) as [[n0 [|cap caps0]]|] eqn:L; try discriminate.
    injection H as <- <-.
    destruct (IH _ _ eq_refl) as (cap' & caps' & s' & n' & E & Hne & Hlt & -> & Hrest & ->).
    injection E as <- <-.
    exists (d :: cap), caps0, s', n'.
    unfold noLineTerminator in *. simpl. rewrite T. repeat split; auto. discriminate.
Qed.

Lemma lazyPlus_caps rest s n caps :
  lazyPlus rest s = Some (n, caps) -> caps <> [].
Proof.
  destruct s as [|d s]; simpl; [discriminate|].
  destruct (isLineTerminator d); [discriminate|].
  destruct (rest s) as [[n0 caps0]|].
  - intros H. injection H as <- <-. discriminate.
  - destruct (lazyPlus rest s) as [[n0 [|cap caps0]]|]; try discriminate.
    intros H. injection H as <- <-. discriminate.
Qed.

Lemma lazyPlus_complete rest cap s' :
  cap <> [] -> noLineTerminator cap ->
  rest s' <> None ->
  lazyPlus rest (cap ++ s') <> None.
Proof.
  intros Hne Hlt Hrest.
  induction cap as [|d cap IH]; [contradiction|].
  unfold noLineTerminator in Hlt. simpl in Hlt.
  apply andb_true_iff in Hlt. destruct Hlt as [Hd Hcap].
  apply negb_true_iff in Hd. simpl. rewrite Hd.
  destruct (rest (cap ++ s')) as [[n caps]|] eqn:R; [discriminate|].
  destruct cap as [|d' cap'].
  - simpl in R. congruence.
  - assert (IH' : lazyPlus rest ((d' :: cap') ++ s') <> None)
      by (apply IH; [discriminate | exact Hcap]).
    destruct (lazyPlus rest ((d' :: cap') ++ s')) as [[n [|c0 caps]]|] eqn:L.
    + now apply lazyPlus_caps in L.
    + discriminate.
    + contradiction.
Qed.

(** X19.  For a pattern that compiled, the [while] loop over
    [regex.exec] ends within as many turns as the value has code units,
    plus one, goes through the matches of [allMatches] and leaves
    [lastIndex] at 0. *)
Lemma while_loop_of_compiled_pattern prefix suffix regex value :
  compile prefix suffix = Some regex ->
  execLoop (Datatypes.S (List.length value)) regex value 0
  = Some (allMatches regex value, 0).
Proof.
  intros H. apply execLoop_allMatches. eapply compile_has_capture, H.
Qed.

Lemma literal_match_sound prefix suffix s n caps :
  matchHere (map AChar prefix ++ ACapture :: map AChar suffix) s = Some (n, caps) ->
  exists cap tail,
    caps = [cap] /\ cap <> [] /\ noLineTerminator cap
    /\ s = prefix ++ cap ++ suffix ++ tail
    /\ n = List.length (prefix ++ cap ++ suffix).
Proof.
  intros H.
  destruct (matchHere_chars _ _ _ _ _ H) as (s1 & n1 & -> & H1 & ->).
  simpl in H1.
  destruct (lazyPlus_sound _ _ _ _ H1)
    as (cap & caps' & s2 & n2 & -> & Hne & Hlt & -> & H2 & ->).
  rewrite <- (app_nil_r (map AChar suffix)) in H2.
  destruct (matchHere_chars _ _ _ _ _ H2) as (tail & n3 & -> & H3 & ->).
  simpl in H3. injection H3 as <- <-.
  exists cap, tail. repeat split; auto.
  rewrite !length_app. lia.
Qed.

Lemma literal_match_complete prefix suffix cap tail :
  cap <> [] -> noLineTerminator cap ->
  matchHere (map AChar prefix ++ ACapture :: map AChar suffix)
            (prefix ++ cap ++ suffix ++ tail) <> None.
Proof.
  intros Hne Hlt. rewrite matchHere_chars_complete. simpl.
  assert (H : lazyPlus (matchHere (map AChar suffix)) (cap ++ suffix ++ tail) <> None).
  { apply lazyPlus_complete; auto.
    rewrite <- (app_nil_r (map AChar suffix)), matchHere_chars_complete.
    simpl. discriminate. }
  destruct (lazyPlus (matchHere (map AChar suffix)) (cap ++ suffix ++ tail)) as [[n caps]|];
    [discriminate | contradiction].
Qed.

(** X18.  What the escaping achieves.  When the only syntax characters of the
    prefix are [$] and [(] and the only one of the suffix is [)], the
    pattern compiles, and it matches at the head of a text exactly when
    the text starts with the prefix, a capture that is not empty and
    holds no line terminator, and the suffix; every match that the scan
    reports is the prefix, its capture and the suffix. *)
Lemma escaped_prefix_and_suffix_are_literal prefix suffix :
  forallb prefixLiteral prefix = true ->
  forallb suffixLiteral suffix = true ->
  exists regex,
    compile prefix suffix = Some regex
    /\ (forall s, matchHere regex s <> None <->
                  exists cap tail,
                    cap <> [] /\ noLineTerminator cap /\ s = prefix ++ cap ++ suffix ++ tail)
    /\ (forall value m,
           In m (allMatches regex value) ->
           fullMatch m = prefix ++ path m ++ suffix
           /\ path m <> [] /\ noLineTerminator (path m)).
Proof.
  intros Hp Hs. eexists. split; [now apply compile_literal|]. split.
  - intros s. split.
    + intros H.
      destruct (matchHere (map AChar prefix ++ ACapture :: map AChar suffix) s)
        as [[n caps]|] eqn:R; [|contradiction].
      destruct (literal_match_sound _ _ _ _ _ R) as (cap & tail & _ & Hne & Hlt & Heq & _).
      now exists cap, tail.
    + intros (cap & tail & Hne & Hlt & ->). now apply literal_match_complete.
  - intros value m Hin.
    destruct (scan_path _ _ _ _ _ Hin) as (tail & n & caps & R & Hlen & Hpath).
    destruct (literal_match_sound _ _ _ _ _ R) as (cap & tail' & -> & Hne & Hlt & Heq & Hn).
    simpl in Hpath. subst cap.
    split; [|now split].
    assert (E : firstn n (fullMatch m ++ tail) = firstn n ((prefix ++ path m ++ suffix) ++ tail'))
      by (rewrite Heq; now rewrite <- !app_assoc).
    rewrite <- Hlen in E at 1. rewrite firstn_app_exact in E.
    rewrite Hn, firstn_app_exact in E. exact E.
Qed.

End CompileFacts.

(* ================================================================== *)
(** * Facts about [verifyEnvironment]                                  *)
(* ================================================================== *)

Section VerifyFacts.

Variable S : Type.
Variable this : TaemnoOS.t S.
Variable regex : list Atom.

Lemma missingOf_app a b : missingOf (a ++ b) = missingOf a ++ missingOf b.
Proof. unfold missingOf. now rewrite filter_app, map_app. Qed.

Lemma checkAll_app a b st :
  checkAll S this (a ++ b) st =
  match checkAll S this a st with
  | (Ok ca, st1) =>
      match checkAll S this b st1 with
      | (Ok cb, st2) => (Ok (ca ++ cb), st2)
      | (Throw e, st2) => (Throw e, st2)
      end
  | (Throw e, st1) => (Throw e, st1)
  end.
Proof.
  revert st. induction a as [|r a IH]; intros st; simpl.
  - unfold ret. now destruct (checkAll S this b st) as [[cb|e] st2].
  - unfold bind.
    destruct (exists_ (TaemnoOS.provider this) (service (snd r)) (account (snd r)) st)
      as [[found|e] st1]; [|reflexivity].
    rewrite IH.
    destruct (checkAll S this a st1) as [[ca|e] st2]; [|reflexivity].
    unfold ret. simpl.
    now destruct (checkAll S this b st2) as [[cb|e] st3].
Qed.

Lemma checkAll_fst refs st checked st' :
  checkAll S this refs st = (Ok checked, st') -> map fst checked = refs.
Proof.
  revert st checked. induction refs as [|r refs IH]; intros st checked H; simpl in H.
  - now injection H as <- <-.
  - unfold bind in H.
    destruct (exists_ (TaemnoOS.provider this) (service (snd r)) (account (snd r)) st)
      as [[found|e] st1]; [|discriminate].
    destruct (checkAll S this refs st1) as [[rest|e] st2] eqn:R; [|discriminate].
    injection H as <- <-. simpl. f_equal. eapply IH, R.
Qed.

Lemma verifyMatches_report key ms acc st :
  TaemnoOS.verifyMatches this key ms acc st
  = report S acc (checkAll S this (map (pair key) ms) st).
Proof.
  revert acc st. induction ms as [|m ms IH]; intros acc st; simpl.
  - unfold ret, report, missingOf. simpl. now rewrite app_nil_r.
  - unfold bind, TaemnoOS.exists_, secretExists. simpl.
    destruct (exists_ (TaemnoOS.provider this) (service m) (account m) st)
      as [[found|e] st1]; [|reflexivity].
    rewrite IH. unfold report.
    destruct (checkAll S this (map (pair key) ms) st1) as [[rest|e] st2]; [|reflexivity].
    unfold ret. f_equal. f_equal.
    destruct found; unfold missingOf; simpl; [reflexivity|].
    now rewrite <- app_assoc.
Qed.

Lemma verifyEntries_report entries acc st :
  TaemnoOS.verifyEntries this regex entries acc st
  = report S acc (checkAll S this (references regex entries) st).
Proof.
  revert acc st. induction entries as [|[key v] entries IH]; intros acc st; simpl.
  - unfold ret, report, missingOf. simpl. now rewrite app_nil_r.
  - destruct v as [| | | |value]; simpl; try apply IH.
    unfold bind. rewrite verifyMatches_report, checkAll_app. unfold report.
    destruct (checkAll S this (map (pair key) (allMatches regex value)) st)
      as [[ca|e] st1]; [|reflexivity].
    rewrite IH. unfold report.
    destruct (checkAll S this (references regex entries) st1) as [[cb|e] st2]; [|reflexivity].
    now rewrite missingOf_app, app_assoc.
Qed.

End VerifyFacts.

(* ================================================================== *)
(** * Resolution                                                       *)
(* ================================================================== *)

Lemma defaultRegex_compiled :
  compile (TaemnoOS.envPrefix TaemnoOS.defaults) (TaemnoOS.envSuffix TaemnoOS.defaults)
  = Some defaultRegex.
Proof. reflexivity. Qed.

(** The two operations of the facade are the engines below, run with the
    pattern that the options compile to. *)
Lemma resolveEnvironment_compiled (S : Type) (this : TaemnoOS.t S) (env : Env) regex :
  compile (TaemnoOS.envPrefix (TaemnoOS.options this))
          (TaemnoOS.envSuffix (TaemnoOS.options this)) = Some regex ->
  TaemnoOS.resolveEnvironment this env
  = Some (resolveSecretsWith regex env (TaemnoOS.provider this)).
Proof.
  intros H. unfold TaemnoOS.resolveEnvironment, resolveSecrets. now rewrite H.
Qed.

Lemma verifyEnvironment_compiled (S : Type) (this : TaemnoOS.t S) (env : Env) regex :
  compile (TaemnoOS.envPrefix (TaemnoOS.options this))
          (TaemnoOS.envSuffix (TaemnoOS.options this)) = Some regex ->
  TaemnoOS.verifyEnvironment this env
  = Some (TaemnoOS.verifyEnvironmentWith this regex env).
Proof.
  intros H. unfold TaemnoOS.verifyEnvironment. now rewrite H.
Qed.

(** C1, as stated, fails twice.  With the constant secret [X], the value
    [nested] resolves to [X X]: each match replaced one occurrence, where
    replacing every occurrence of the first match's text would have left
    the second match without an occurrence.  With the secret [pa$$word]
    the value [oneReference] receives [pa$word]: the secret is read as a
    replacement template. *)
Lemma C1_counterexample :
  (run (TaemnoOS.resolveEnvironment (facade (Mock.constant "X")) [("KEY" : str, JStr nested)]) tt
   = Some (Ok [("KEY" : str, JStr "X X")], tt)
   /\ resolvedAsSpecified (fun _ => "X" : str) (allMatches defaultRegex nested) nested
      = "X $(taemno os://X"
   /\ ("X X" : str) <> "X $(taemno os://X")
  /\
  (run (TaemnoOS.resolveEnvironment (facade (Mock.constant "pa$$word"))
          [("KEY" : str, JStr oneReference)]) tt
   = Some (Ok [("KEY" : str, JStr "pre-pa$word-post")], tt)
   /\ resolvedAsSpecified (fun _ => "pa$$word" : str)
        (allMatches defaultRegex oneReference) oneReference
      = "pre-pa$$word-post"
   /\ ("pre-pa$word-post" : str) <> "pre-pa$$word-post").
Proof.
  repeat split; try (vm_compute; reflexivity); vm_compute; discriminate.
Qed.

(** C1, amended.  In an environment with distinct keys whose resolution
    returns, take a string value, the state [st1] that the [get] calls
    for the entries before it left, and the secrets [answers] that the
    [get] calls for its matches returned from there, one after the
    other.  The resolved value is the working value after one step per
    match, from left to right.  The secret of each step is what [get]
    returned for the match's service and account in the state the steps
    before it left, and when that secret holds none of [$$], [$&], [$`]
    and [$'], the step puts it in the place of the first occurrence of
    the match's text in the working value, the text before and after
    that occurrence being kept. *)
Theorem C1_first_occurrence_per_match
        (S : Type) (provider : Provider S) (regex : list Atom)
        (before after final : Env) (key value : str)
        (st st1 st2 st' : S) (earlier answers : list (str * Match * str)) :
  NoDup (keys (before ++ (key, JStr value) :: after)) ->
  askAll S provider (references regex before) st = (Ok earlier, st1) ->
  askAll S provider (map (pair key) (allMatches regex value)) st1 = (Ok answers, st2) ->
  resolveSecretsWith regex (before ++ (key, JStr value) :: after) provider st
  = (Ok final, st') ->
  map fst answers = map (pair key) (allMatches regex value)
  /\ lookup final key = JStr (valueAfter answers value)
  /\ forall done r secret todo,
       answers = done ++ (r, secret) :: todo ->
       (exists sa sb,
           askAll S provider (map fst done) st1 = (Ok done, sa)
           /\ get provider (service (snd r)) (account (snd r)) sa = (Ok secret, sb))
       /\ (literalSecret secret = true ->
           spliceFirst (fullMatch (snd r)) secret
                       (valueAfter done value) (valueAfter (done ++ [(r, secret)]) value)).
Proof.
  intros Hnd Hbefore Hhere Hrun.
  split; [exact (askAll_fst S provider _ _ _ _ Hhere)|]. split.
  - unfold keys in Hnd. rewrite map_app in Hnd. simpl in Hnd.
    apply NoDup_remove_2 in Hnd.
    assert (Hb : ~ In key (keys before)) by (intros H; apply Hnd, in_or_app; now left).
    assert (Ha : ~ In key (keys after)) by (intros H; apply Hnd, in_or_app; now right).
    unfold resolveSecretsWith in Hrun. rewrite resolveEntries_app in Hrun.
    set (env := before ++ (key, JStr value) :: after) in *.
    destruct (resolveEntries_answered S provider regex before env st earlier st1 Hbefore)
      as (mid & Hmid).
    rewrite Hmid in Hrun. cbn [resolveEntries] in Hrun. unfold bind in Hrun.
    rewrite (resolveMatches_answered S provider key _ value _ _ _ Hhere) in Hrun.
    assert (Hun : forall value0, In (key, JStr value0) after -> allMatches regex value0 = []).
    { intros value0 Hin. exfalso. apply Ha, in_map_iff. now exists (key, JStr value0). }
    rewrite (resolveEntries_untouched S provider regex _ _ _ _ _ key Hun Hrun).
    destruct (allMatches regex value) eqn:M.
    + apply askAll_fst in Hhere. destruct answers; [|discriminate].
      assert (Hun' : forall value0, In (key, JStr value0) before -> allMatches regex value0 = []).
      { intros value0 Hin. exfalso. apply Hb, in_map_iff. now exists (key, JStr value0). }
      rewrite (resolveEntries_untouched S provider regex _ _ _ _ _ key Hun' Hmid).
      subst env. clear - Hb. induction before as [|[k v] before IH]; simpl.
      * now rewrite str_eqb_refl.
      * destruct (str_eqb k key) eqn:E.
        -- apply str_eqb_eq in E. subst k. exfalso. apply Hb. now left.
        -- apply IH. intros H. apply Hb. now right.
    + apply lookup_assign_same.
  - intros done r secret todo Hsplit. split.
    + subst answers. exact (askAll_split S provider _ _ _ _ _ _ _ Hhere).
    + intros Hlit. rewrite valueAfter_step. now apply replace_literal.
Qed.

Lemma C1_first_occurrence_per_match_witness :
  lookup [("A" : str, JStr "pa$word"); ("KEY" : str, JStr "pre-pa$word-post");
          ("N" : str, JNum 3)] "KEY"
  = JStr "pre-pa$word-post".
Proof.
  exact (proj1 (proj2
    (C1_first_occurrence_per_match unit (Mock.constant "pa$word") defaultRegex
       [("A" : str, JStr "$(taemno os://a/b)")] [("N" : str, JNum 3)]
       [("A" : str, JStr "pa$word"); ("KEY" : str, JStr "pre-pa$word-post");
        ("N" : str, JNum 3)]
       "KEY" oneReference tt tt tt tt
       [("A" : str, mkMatch 0 "$(taemno os://a/b)" "a/b", "pa$word" : str)]
       [("KEY" : str, mkMatch 4 "$(taemno os://svc/acct)" "svc/acct", "pa$word" : str)]
       ltac:(repeat constructor; simpl; intuition discriminate)
       ltac:(vm_compute; reflexivity)
       ltac:(vm_compute; reflexivity)
       ltac:(vm_compute; reflexivity)))).
Defined.

(** C2.  When a [get] of the run throws, the [get] calls for the
    references before it having returned, each from the state that the
    call before it left, [resolveSecrets] throws: no mapping is
    returned.  What it throws is the error of line 36, which names the
    key under which the reference stands and carries the message of what
    [get] threw, and the state is the one in which that [get] ended, so
    that nothing is asked after it.  Every failure of [resolveSecrets]
    is of this kind, and when every [get] returns, a mapping is
    returned. *)
Theorem C2_resolution_fails_as_a_whole
        (S : Type) (provider : Provider S) (regex : list Atom) (env : Env) (st : S) :
  (forall asked key m rest answers st1 cause st2,
      references regex env = asked ++ (key, m) :: rest ->
      askAll S provider asked st = (Ok answers, st1) ->
      get provider (service m) (account m) st1 = (Throw cause, st2) ->
      resolveSecretsWith regex env provider st
      = (Throw (resolutionError key cause), st2))
  /\ (forall err st',
         resolveSecretsWith regex env provider st = (Throw err, st') ->
         exists asked key m rest answers st1 cause,
           references regex env = asked ++ (key, m) :: rest
           /\ askAll S provider asked st = (Ok answers, st1)
           /\ get provider (service m) (account m) st1 = (Throw cause, st')
           /\ err = resolutionError key cause)
  /\ (forall answers st',
         askAll S provider (references regex env) st = (Ok answers, st') ->
         exists final, resolveSecretsWith regex env provider st = (Ok final, st')).
Proof.
  split; [|split].
  - intros asked key m rest answers st1 cause st2 Hrefs A G.
    exact (resolveEntries_refused S provider regex env env st asked key m rest answers
             st1 cause st2 Hrefs A G).
  - intros err st' H.
    exact (resolveEntries_thrown S provider regex env env st err st' H).
  - intros answers st' A.
    exact (resolveEntries_answered S provider regex env env st answers st' A).
Qed.

Lemma C2_resolution_fails_as_a_whole_witness :
  resolveSecretsWith defaultRegex
    [("A" : str, JStr "$(taemno os://a/b)");
     ("B" : str, JStr "$(taemno os://c/d) $(taemno os://e/f)")]
    (Mock.failingAt 1 "X" "locked") 0
  = (Throw (resolutionError "B" (Error "locked")), 2).
Proof.
  apply (proj1 (C2_resolution_fails_as_a_whole nat (Mock.failingAt 1 "X" "locked")
                  defaultRegex
                  [("A" : str, JStr "$(taemno os://a/b)");
                   ("B" : str, JStr "$(taemno os://c/d) $(taemno os://e/f)")] 0)
           [("A" : str, mkMatch 0 "$(taemno os://a/b)" "a/b")]
           "B" (mkMatch 0 "$(taemno os://c/d)" "c/d")
           [("B" : str, mkMatch 19 "$(taemno os://e/f)" "e/f")]
           [("A" : str, mkMatch 0 "$(taemno os://a/b)" "a/b", "X" : str)]
           1 (Error "locked")).
  - vm_compute. reflexivity.
  - reflexivity.
  - reflexivity.
Defined.

(** C9.  An environment without references is returned as it is, and no
    provider call is made.  With a provider whose [get] succeeds,
    [resolveSecrets] returns.  Whenever it returns, the result has the
    keys of the input, in the same order, and a key under which no
    string with a reference stands keeps its value. *)
Theorem C9_same_keys_and_pass_through
        (S : Type) (provider : Provider S) (regex : list Atom) (env : Env) (st : S) :
  ((forall k value, In (k, JStr value) env -> allMatches regex value = []) ->
   resolveSecretsWith regex env provider st = (Ok env, st))
  /\
  (neverFails S provider ->
   exists final st', resolveSecretsWith regex env provider st = (Ok final, st'))
  /\
  (forall final st',
      resolveSecretsWith regex env provider st = (Ok final, st') ->
      keys final = keys env
      /\ forall k,
          (forall value, In (k, JStr value) env -> allMatches regex value = []) ->
          lookup final k = lookup env k).
Proof.
  split; [|split].
  - intros Hno. now apply resolveEntries_no_reference.
  - intros Hok. now apply resolveEntries_returns.
  - intros final st' H. split.
    + apply (resolveEntries_keys S provider regex env env st final st'); [apply incl_refl | exact H].
    + intros k Hk.
      exact (resolveEntries_untouched S provider regex env env st final st' k Hk H).
Qed.

Lemma C9_same_keys_and_pass_through_witness :
  resolveSecretsWith defaultRegex
    [("A" : str, JStr "plain"); ("N" : str, JNum 3); ("U" : str, JUndefined)]
    (Mock.failing "unused") tt
  = (Ok [("A" : str, JStr "plain"); ("N" : str, JNum 3); ("U" : str, JUndefined)], tt)
  /\ keys [("KEY" : str, JStr "pre-X-post"); ("N" : str, JNum 3)]
     = keys [("KEY" : str, JStr oneReference); ("N" : str, JNum 3)].
Proof.
  split.
  - apply (proj1 (C9_same_keys_and_pass_through unit (Mock.failing "unused") defaultRegex
                    [("A" : str, JStr "plain"); ("N" : str, JNum 3); ("U" : str, JUndefined)] tt)).
    intros k value [H|[H|[H|[]]]]; try discriminate.
    injection H as <- <-. vm_compute. reflexivity.
  - apply (proj2 (proj2 (C9_same_keys_and_pass_through unit (Mock.constant "X") defaultRegex
                           [("KEY" : str, JStr oneReference); ("N" : str, JNum 3)] tt))
             [("KEY" : str, JStr "pre-X-post"); ("N" : str, JNum 3)] tt).
    vm_compute. reflexivity.
Defined.

(* ================================================================== *)
(** * Verification                                                     *)
(* ================================================================== *)

(** The properties under an array index come in ascending order of
    the index, and they are the properties of the object whose key is
    an array index. *)
Lemma insertByIndex_In n kv sorted x :
  In x (insertByIndex n kv sorted) <-> x = (n, kv) \/ In x sorted.
Proof.
  induction sorted as [|[n' kv'] rest IH]; simpl.
  - intuition.
  - destruct (N.ltb n n'); simpl; [intuition|].
    rewrite IH. intuition.
Qed.

Lemma insertByIndex_sorted n kv sorted :
  StronglySorted (fun a b : N * (str * JsVal) => (fst a <= fst b)%N) sorted ->
  StronglySorted (fun a b : N * (str * JsVal) => (fst a <= fst b)%N)
                 (insertByIndex n kv sorted).
Proof.
  induction sorted as [|[n' kv'] rest IH]; intros H; simpl.
  - repeat constructor.
  - inversion H as [|? ? Hrest Hall]; subst.
    destruct (N.ltb n n') eqn:E.
    + apply N.ltb_lt in E. constructor; [exact H|].
      constructor; [simpl; lia|].
      rewrite Forall_forall in *. intros x Hx. specialize (Hall x Hx). simpl in *. lia.
    + apply N.ltb_ge in E. constructor; [now apply IH|].
      rewrite Forall_forall in *. intros x Hx.
      apply insertByIndex_In in Hx. destruct Hx as [->|Hx]; [exact E | now apply Hall].
Qed.

Lemma indexed_sorted (created : Env) :
  StronglySorted (fun a b : N * (str * JsVal) => (fst a <= fst b)%N) (indexed created).
Proof.
  induction created as [|kv created IH]; simpl; [constructor|].
  destruct (arrayIndex (fst kv)); [now apply insertByIndex_sorted | exact IH].
Qed.

Lemma indexed_In (created : Env) n kv :
  In (n, kv) (indexed created) <-> In kv created /\ arrayIndex (fst kv) = Some n.
Proof.
  induction created as [|kv' created IH]; simpl; [intuition|].
  destruct (arrayIndex (fst kv')) as [n'|] eqn:E.
  - rewrite insertByIndex_In, IH. split.
    + intros [H|[H1 H2]]; [injection H as -> ->; auto | auto].
    + intros [[->|H1] H2]; [left; congruence | auto].
  - rewrite IH. split; [intuition|].
    intros [[->|H1] H2]; [congruence | auto].
Qed.

(** Without an array index among the keys, [Object.entries] follows
    the order of creation. *)
Lemma objectEntries_named (created : Env) :
  (forall kv, In kv created -> arrayIndex (fst kv) = None) ->
  objectEntries created = created.
Proof.
  intros H. unfold objectEntries, named.
  induction created as [|kv created IH]; [reflexivity|].
  cbn [indexed filter]. rewrite (H kv (or_introl eq_refl)).
  assert (H' : forall kv0, In kv0 created -> arrayIndex (fst kv0) = None)
    by (intros kv0 Hin; apply H; now right).
  specialize (IH H').
  destruct (indexed created) as [|x xs] eqn:E.
  - simpl in *. now f_equal.
  - exfalso. simpl in IH.
    assert (Hlen : List.length (snd x :: map snd xs ++ filter
                     (fun kv0 => match arrayIndex (fst kv0) with
                                 | Some _ => false
                                 | None => true
                                 end) created) = List.length created) by now rewrite IH.
    simpl in Hlen. rewrite length_app in Hlen.
    pose proof (filter_length_le
                  (fun kv0 : str * JsVal => match arrayIndex (fst kv0) with
                              | Some _ => false
                              | None => true
                              end) created) as Hle.
    clear - Hlen Hle E H'.
    assert (Hall : filter (fun kv0 : str * JsVal => match arrayIndex (fst kv0) with
                                       | Some _ => false
                                       | None => true
                                       end) created = created).
    { clear - H'. induction created as [|kv created IH]; [reflexivity|].
      simpl. rewrite (H' kv (or_introl eq_refl)). f_equal.
      apply IH. intros kv0 Hin. apply H'. now right. }
    rewrite Hall in Hlen. lia.
Qed.

(** C3, as stated, fails on the order: an object whose keys were created
    in the order [b], [1], [a], [0] is gone through in the order [0],
    [1], [b], [a], and so are the missing secrets reported. *)
Lemma C3_counterexample :
  let created :=
    [("b" : str, JStr "$(taemno os://s/b)"); ("1" : str, JStr "$(taemno os://s/1)");
     ("a" : str, JStr "$(taemno os://s/a)"); ("0" : str, JStr "$(taemno os://s/0)")] in
  keys created = ["b" : str; "1" : str; "a" : str; "0" : str]
  /\ exists missing,
      run (TaemnoOS.verifyEnvironment (facade (Mock.failing "absent"))
             (objectEntries created)) tt
      = Some (Ok (TaemnoOS.mkVerification false missing), tt)
      /\ map TaemnoOS.key missing = ["0" : str; "1" : str; "b" : str; "a" : str]
      /\ map TaemnoOS.key missing <> keys created.
Proof.
  split; [reflexivity|].
  eexists. split; [vm_compute; reflexivity|].
  split; [reflexivity | discriminate].
Qed.

(** C3, amended.  For an object whose properties were created in the
    order [created], [verifyEnvironment] goes through the entries in the
    order of [Object.entries] (the keys that are array indices first, in
    ascending numeric order, then the other keys in the order of their
    creation, which is the order of creation of all keys when none is an
    array index) and through the matches of each value from left to
    right.  It makes one existence check for each reference in that
    order; [missingSecrets] holds, in that order, one entry with the
    key, service and account of each reference whose check answered
    [false]; and [success] is [true] exactly when [missingSecrets] is
    empty.  A check that throws ends the call with that error. *)
Theorem C3_one_entry_per_missing_reference
        (S : Type) (this : TaemnoOS.t S) (regex : list Atom) (created : Env) (st : S) :
  let env := objectEntries created in
  TaemnoOS.verifyEnvironmentWith this regex env st
  = match checkAll S this (references regex env) st with
    | (Ok checked, st') =>
        (Ok (TaemnoOS.mkVerification
               (Nat.eqb (List.length (missingOf checked)) 0) (missingOf checked)), st')
    | (Throw e, st') => (Throw e, st')
    end
  /\ match checkAll S this (references regex env) st with
     | (Ok checked, _) => map fst checked = references regex env
     | (Throw _, _) => True
     end
  /\ match TaemnoOS.verifyEnvironmentWith this regex env st with
     | (Ok r, _) => TaemnoOS.success r = true <-> TaemnoOS.missingSecrets r = []
     | (Throw _, _) => True
     end
  /\ env = map snd (indexed created) ++ named created
  /\ StronglySorted (fun a b : N * (str * JsVal) => (fst a <= fst b)%N) (indexed created)
  /\ (forall n kv,
         In (n, kv) (indexed created) <-> In kv created /\ arrayIndex (fst kv) = Some n)
  /\ ((forall kv, In kv created -> arrayIndex (fst kv) = None) -> env = created).
Proof.
  intros env.
  assert (E : TaemnoOS.verifyEnvironmentWith this regex env st
              = match checkAll S this (references regex env) st with
                | (Ok checked, st') =>
                    (Ok (TaemnoOS.mkVerification
                           (Nat.eqb (List.length (missingOf checked)) 0) (missingOf checked)), st')
                | (Throw e, st') => (Throw e, st')
                end).
  { unfold TaemnoOS.verifyEnvironmentWith, bind.
    rewrite verifyEntries_report. unfold report.
    now destruct (checkAll S this (references regex env) st) as [[checked|e] st']. }
  split; [exact E|]. split; [|split; [|split]].
  - destruct (checkAll S this (references regex env) st) as [[checked|e] st'] eqn:C; [|exact I].
    exact (checkAll_fst S this _ _ _ _ C).
  - rewrite E.
    destruct (checkAll S this (references regex env) st) as [[checked|e] st']; [|exact I].
    simpl. destruct (missingOf checked); simpl; split; congruence.
  - reflexivity.
  - split; [apply indexed_sorted|]. split; [apply indexed_In|].
    apply objectEntries_named.
Qed.

Lemma C3_one_entry_per_missing_reference_witness :
  objectEntries [("TEST_KEY" : str, JStr "$(taemno os://service/account)");
                 ("MISSING_KEY" : str, JStr "$(taemno os://missing/account)")]
  = [("TEST_KEY" : str, JStr "$(taemno os://service/account)");
     ("MISSING_KEY" : str, JStr "$(taemno os://missing/account)")].
Proof.
  apply (proj2 (proj2 (proj2 (proj2 (proj2 (proj2
           (C3_one_entry_per_missing_reference unit (facade (Mock.failing "absent"))
              defaultRegex
              [("TEST_KEY" : str, JStr "$(taemno os://service/account)");
               ("MISSING_KEY" : str, JStr "$(taemno os://missing/account)")] tt))))))).
  intros kv [<-|[<-|[]]]; reflexivity.
Defined.

(* ================================================================== *)
(** * Service and account of a reference                               *)
(* ================================================================== *)

Section SplitFacts.

Variable sep : ascii.

Lemma split_not_nil (s : str) : split sep s <> [].
Proof.
  induction s as [|c s IH]; simpl; [discriminate|].
  destruct (Ascii.eqb c sep); [discriminate|].
  destruct (split sep s); [contradiction | discriminate].
Qed.

Lemma split_whole (a : str) : ~ In sep a -> split sep a = [a].
Proof.
  induction a as [|c a IH]; intros H; simpl; [reflexivity|].
  destruct (Ascii.eqb c sep) eqn:E.
  - apply Ascii.eqb_eq in E. subst c. exfalso. apply H. now left.
  - rewrite IH; [reflexivity|]. intros Hin. apply H. now right.
Qed.

Lemma split_at_first (a rest : str) :
  ~ In sep a -> split sep (a ++ sep :: rest) = a :: split sep rest.
Proof.
  induction a as [|c a IH]; intros H; simpl.
  - now rewrite Ascii.eqb_refl.
  - destruct (Ascii.eqb c sep) eqn:E.
    + apply Ascii.eqb_eq in E. subst c. exfalso. apply H. now left.
    + rewrite IH; [reflexivity|]. intros Hin. apply H. now right.
Qed.

End SplitFacts.

(** C5, as stated, fails: the capture [a/b/c] gives the account [b], in
    verification and in resolution alike (the second provider answers
    with the account it is asked for). *)
Lemma C5_counterexample :
  run (TaemnoOS.verifyEnvironment (facade (Mock.failing "absent"))
         [("KEY" : str, JStr threeParts)]) tt
  = Some (Ok (TaemnoOS.mkVerification false
                [TaemnoOS.mkMissing "KEY" (JStr "a") (JStr "b")]), tt)
  /\ run (TaemnoOS.resolveEnvironment
            (facade (Mock.answering (fun _ account => Ok (toString account)) (fun _ _ => true)))
            [("KEY" : str, JStr threeParts)]) tt
     = Some (Ok [("KEY" : str, JStr "b")], tt)
  /\ JStr "b" <> JStr "b/c".
Proof.
  repeat split; try (vm_compute; reflexivity). discriminate.
Qed.

(** C5, amended.  When the capture holds a [/], the service is the text
    before the first [/] and the account is the text between the first
    [/] and the second one, or up to the end of the capture when there is
    no second one; what follows a second [/] is dropped.  [service] and
    [account] are what both [resolveSecrets] and [verifyEnvironment]
    pass to the provider. *)
Theorem C5_account_ends_at_second_separator (m : Match) (a b tail : str) :
  path m = a ++ "/"%char :: b ++ tail ->
  ~ In "/"%char a ->
  ~ In "/"%char b ->
  tail = [] \/ (exists rest, tail = "/"%char :: rest) ->
  service m = JStr a /\ account m = JStr b.
Proof.
  intros Hpath Ha Hb Htail. unfold service, account. rewrite Hpath.
  rewrite split_at_first by assumption.
  split; [reflexivity|].
  destruct Htail as [->|[rest ->]].
  - rewrite app_nil_r, split_whole by assumption. reflexivity.
  - rewrite split_at_first by assumption. reflexivity.
Qed.

Lemma C5_account_ends_at_second_separator_witness :
  service (mkMatch 0 threeParts "a/b/c") = JStr "a"
  /\ account (mkMatch 0 threeParts "a/b/c") = JStr "b".
Proof.
  apply (C5_account_ends_at_second_separator (mkMatch 0 threeParts "a/b/c") "a" "b" "/c").
  - reflexivity.
  - simpl. intros [H|[]]. discriminate.
  - simpl. intros [H|[]]. discriminate.
  - right. now exists ("c" : str).
Defined.

(* ================================================================== *)
(** * Prefix and suffix in the pattern                                 *)
(* ================================================================== *)

(** C4 at a prefix with a dot.  With the options [vault.] and [;], the
    dot reaches the pattern unescaped and stands for any character: the
    value [vaultXdb/user;], in which the prefix does not occur, is taken
    for a reference to [db/user] and resolved. *)
Lemma C4_dot_in_prefix_matches_any_character :
  source "vault." ";" = "vault.(.+?);"
  /\ compile "vault." ";"
     = Some [AChar "v"; AChar "a"; AChar "u"; AChar "l"; AChar "t"; AAny; ACapture; AChar ";"]
  /\ indexOf "vault." "vaultXdb/user;" = None
  /\ run (TaemnoOS.resolveEnvironment
            (TaemnoOS.mk (TaemnoOS.mkOptions "vault." ";") (Mock.constant "S"))
            [("KEY" : str, JStr "vaultXdb/user;")]) tt
     = Some (Ok [("KEY" : str, JStr "S")], tt)
  /\ run (TaemnoOS.verifyEnvironment
            (TaemnoOS.mk (TaemnoOS.mkOptions "vault." ";") (Mock.failing "absent"))
            [("KEY" : str, JStr "vaultXdb/user;")]) tt
     = Some (Ok (TaemnoOS.mkVerification false
                   [TaemnoOS.mkMissing "KEY" (JStr "db") (JStr "user")]), tt).
Proof.
  repeat split; vm_compute; reflexivity.
Qed.

(* ================================================================== *)
(** * Provider selection                                               *)
(* ================================================================== *)

(** X22.  The switch of lines 16-28 by itself, for whatever value the
    import of line 7 gave: it yields the darwin provider on [darwin];
    on [linux] and on [win32] it reads an identifier that is not
    declared and throws a ReferenceError; on any other platform it
    throws [Unsupported platform]. *)
Theorem X22_switch_selects_darwin_only (P : Type) (darwinProvider : P) (platform : str) :
  (platform = "darwin" /\ Providers.select platform darwinProvider = Ok darwinProvider)
  \/ ((platform = "linux" \/ platform = "win32")
      /\ exists what, Providers.select platform darwinProvider = Throw (ReferenceError what))
  \/ (platform <> "darwin" /\ platform <> "linux" /\ platform <> "win32"
      /\ Providers.select platform darwinProvider
         = Throw (Error ("Unsupported platform: " ++ platform))).
Proof.
  unfold Providers.select.
  destruct (str_eqb platform "darwin") eqn:D.
  - left. apply str_eqb_eq in D. now split.
  - apply str_eqb_neq in D. right.
    destruct (str_eqb platform "linux") eqn:L.
    + left. apply str_eqb_eq in L. split; [now left | eauto].
    + apply str_eqb_neq in L.
      destruct (str_eqb platform "win32") eqn:W.
      * left. apply str_eqb_eq in W. split; [now right | eauto].
      * apply str_eqb_neq in W. right. auto.
Qed.

(* ================================================================== *)
(** * The darwin provider                                              *)
(* ================================================================== *)

(** What [execFile] counts lies between the number of code units and
    twice that number, so that an output of more than 1024 * 1024 code
    units is always beyond the limit. *)
Lemma byteLength_bounds (s : str) :
  (N.of_nat (List.length s) <= Darwin.byteLength s <= 2 * N.of_nat (List.length s))%N.
Proof.
  unfold Darwin.byteLength.
  assert (H : forall n,
             (n + N.of_nat (List.length s)
              <= fold_left (fun n c => n + (if N.ltb (N_of_ascii c) 128 then 1 else 2)) s n
              <= n + 2 * N.of_nat (List.length s))%N).
  { induction s as [|c s IH]; intros n.
    - simpl. lia.
    - cbn [fold_left List.length].
      specialize (IH (n + (if N.ltb (N_of_ascii c) 128 then 1 else 2))%N).
      destruct (N.ltb (N_of_ascii c) 128); lia. }
  specialize (H 0%N). lia.
Qed.

Lemma long_output_overflows (s : str) :
  (1024 * 1024 < N.of_nat (List.length s))%N -> Darwin.overflows s = true.
Proof.
  intros H. unfold Darwin.overflows, Darwin.maxBuffer.
  apply N.ltb_lt. pose proof (byteLength_bounds s). lia.
Qed.

Section DarwinFacts.

Variable inputClass : list Darwin.ClassItem.
Variable W : Type.
Variable security : list str -> str -> W -> Darwin.ExecOutcome * W.

(** Whatever [validateInputs] throws leaves each operation before its
    first call of the tool: the state, and with it the record of
    calls, is the one the operation started in. *)
Lemma rejected_input_makes_no_call service account keychain secret e
      (st : Darwin.State W) :
  Darwin.validateInputs inputClass service account keychain = Throw e ->
  Darwin.set inputClass security service account secret keychain st = (Throw e, st)
  /\ Darwin.get inputClass security service account keychain st = (Throw e, st)
  /\ Darwin.deleteSecret inputClass security service account keychain st = (Throw e, st).
Proof.
  intros H.
  unfold Darwin.set, Darwin.get, Darwin.deleteSecret, bind, Darwin.lift.
  now rewrite H.
Qed.

(** X20.  A service that is a string and fails the rules (empty, a character
    outside the class, longer than 255) is rejected with
    InvalidInputError by each operation, before any call of the tool;
    so is an account, once the service has passed. *)
Lemma invalid_string_rejected (bad : str) service secret keychain (st : Darwin.State W) :
  Darwin.isValidInput inputClass (JStr bad) = Ok false ->
  (let e := Darwin.InvalidInputError "Invalid service name" in
   Darwin.set inputClass security (JStr bad) service secret keychain st = (Throw e, st)
   /\ Darwin.get inputClass security (JStr bad) service keychain st = (Throw e, st)
   /\ Darwin.deleteSecret inputClass security (JStr bad) service keychain st = (Throw e, st))
  /\
  (Darwin.isValidInput inputClass service = Ok true ->
   let e := Darwin.InvalidInputError "Invalid account name" in
   Darwin.set inputClass security service (JStr bad) secret keychain st = (Throw e, st)
   /\ Darwin.get inputClass security service (JStr bad) keychain st = (Throw e, st)
   /\ Darwin.deleteSecret inputClass security service (JStr bad) keychain st = (Throw e, st)).
Proof.
  intros Hbad. split.
  - apply rejected_input_makes_no_call.
    unfold Darwin.validateInputs, Darwin.check. now rewrite Hbad.
  - intros Hservice. apply rejected_input_makes_no_call.
    unfold Darwin.validateInputs, Darwin.check. now rewrite Hservice, Hbad.
Qed.

End DarwinFacts.

(** The class of line 29 holds the range [_-@], whose bounds are in the
    wrong order (95 and 64), so the module cannot be evaluated. *)
Lemma darwin_module_rejected (W : Type)
      (security : list str -> str -> W -> Darwin.ExecOutcome * W) :
  Darwin.parseClass Darwin.inputClassSource
  = [Darwin.CRange "a" "z"; Darwin.CRange "A" "Z"; Darwin.CRange "0" "9";
     Darwin.CSingle "."; Darwin.CRange "_" "@"; Darwin.CSingle "#"]
  /\ exists e, Darwin.load security = Throw e /\ name e = "SyntaxError".
Proof.
  split; [reflexivity|]. eexists. split; reflexivity.
Qed.

(** X21.  As the sources stand, evaluating [src/providers/index.js]
    throws a SyntaxError on every platform: its first import is
    darwin.js, whose pattern of line 29 is not well formed. *)
Lemma provider_module_rejected (W : Type)
      (security : list str -> str -> W -> Darwin.ExecOutcome * W) (platform : str) :
  exists e, loadProvider security platform = Throw e /\ name e = "SyntaxError".
Proof.
  eexists. split; reflexivity.
Qed.

(** C10 at the platform [darwin]: the import of line 7 is evaluated
    before the switch, and darwin.js throws the SyntaxError of its line
    29, so that no provider comes out where the claim has the darwin
    provider.  On [freebsd] the same SyntaxError is thrown where the
    claim has [Unsupported platform], and on [linux] as well.  With the
    class of line 29 as it is meant, the switch hands out the provider
    on [darwin]. *)
Lemma C10_no_provider_on_darwin :
  let broken :=
    SyntaxError ("Invalid regular expression: /^[a-zA-Z0-9._-@#]+$/: "
                 ++ "Range out of order in character class") in
  loadProvider Keychain.security "darwin" = Throw broken
  /\ loadProvider Keychain.security "freebsd" = Throw broken
  /\ loadProvider Keychain.security "linux" = Throw broken
  /\ broken <> Error "Unsupported platform: freebsd"
  /\ Providers.select "darwin" (Darwin.exports Darwin.inputClassMeant Keychain.security)
     = Ok (Darwin.exports Darwin.inputClassMeant Keychain.security).
Proof.
  repeat split; try reflexivity. discriminate.
Qed.

(** C6, as stated, fails: on a machine where the tool cannot be started,
    [get] fails with that error as its cause, and [exists] answers
    [false] instead of throwing. *)
Lemma C6_counterexample :
  fst (Darwin.get Darwin.inputClassMeant Keychain.unavailable
         (JStr "svc") (JStr "acct") JNull (Keychain.start []))
  = Throw (Darwin.KeychainError "Secret not found: svc/acct"
             (Error "spawn /usr/bin/security ENOENT"))
  /\ fst (Darwin.exists_ Darwin.inputClassMeant Keychain.unavailable
            (JStr "svc") (JStr "acct") JNull (Keychain.start []))
     = Ok false.
Proof.
  split; vm_compute; reflexivity.
Qed.

(** C6, amended.  [exists] never throws: it answers [true] exactly when
    [get] succeeds, and [false] for every failure of [get], be it a
    missing secret, a failure of the backend or a rejected input; it
    leaves the state that [get] leaves. *)
Theorem C6_exists_is_false_on_every_failure
        (inputClass : list Darwin.ClassItem) (W : Type)
        (security : list str -> str -> W -> Darwin.ExecOutcome * W)
        (service account keychain : JsVal) (st : Darwin.State W) :
  Darwin.exists_ inputClass security service account keychain st
  = (match fst (Darwin.get inputClass security service account keychain st) with
     | Ok _ => Ok true
     | Throw _ => Ok false
     end,
     snd (Darwin.get inputClass security service account keychain st)).
Proof.
  unfold Darwin.exists_, tryCatch, bind, ret.
  destruct (Darwin.get inputClass security service account keychain st) as [[secret|e] st'];
    reflexivity.
Qed.

(** C7 at an account that is [undefined] (what a reference without [/]
    gives): [set], [get] and [delete] throw a TypeError, not an
    InvalidInputError; no call of the tool is made. *)
Lemma C7_undefined_account_is_a_type_error (W : Type)
      (security : list str -> str -> W -> Darwin.ExecOutcome * W) (st : Darwin.State W) :
  let e := TypeError "Cannot read properties of undefined (reading 'constructor')" in
  Darwin.set Darwin.inputClassMeant security (JStr "svc") JUndefined "pw" JNull st = (Throw e, st)
  /\ Darwin.get Darwin.inputClassMeant security (JStr "svc") JUndefined JNull st = (Throw e, st)
  /\ Darwin.deleteSecret Darwin.inputClassMeant security (JStr "svc") JUndefined JNull st
     = (Throw e, st)
  /\ name e <> name (Darwin.InvalidInputError "Invalid account name").
Proof.
  intros e. repeat split; try discriminate;
    now apply rejected_input_makes_no_call.
Qed.

(** C8 at [svc], [acct], [pw], on the idealised keychain: [set] succeeds
    but files the secret under the service ['svc'], quotes included, so
    the [get] that follows does not find it. *)
Lemma C8_set_then_get_does_not_find_the_secret :
  let after := Darwin.set Darwin.inputClassMeant Keychain.security
                 (JStr "svc") (JStr "acct") "pw" JNull (Keychain.start []) in
  fst after = Ok true
  /\ Darwin.world (snd after) = [Keychain.mkItem "'svc'" "acct" "pw"]
  /\ exists cause,
      fst (Darwin.get Darwin.inputClassMeant Keychain.security
             (JStr "svc") (JStr "acct") JNull (snd after))
      = Throw (Darwin.KeychainError "Secret not found: svc/acct" cause).
Proof.
  repeat split; try (vm_compute; reflexivity).
  eexists. vm_compute. reflexivity.
Qed.

(** [get] returns the output of the tool trimmed, so a secret does not
    come back with the white space it starts or ends with. *)
Lemma get_trims_the_secret :
  fst (Darwin.get Darwin.inputClassMeant Keychain.security
         (JStr "svc") (JStr "acct") JNull
         (Keychain.start [Keychain.mkItem "svc" "acct" " pw "]))
  = Ok ("pw" : str).
Proof. vm_compute. reflexivity. Qed.

(* ================================================================== *)
(** * Which provider calls the engines make                            *)
(* ================================================================== *)

Section CallFacts.

Variable S : Type.
Variable p : Provider S.
Variable regex : list Atom.

Lemma resolveMatch_recording key m w st log :
  resolveMatch (Spy.recording p) key m w (st, log)
  = (fst (resolveMatch p key m w st),
     (snd (resolveMatch p key m w st), log ++ [Spy.CallGet (service m) (account m)])).
Proof.
  unfold resolveMatch, tryCatch, bind, retrieveSecret, throw, ret. simpl.
  unfold Spy.noting. simpl.
  destruct (get p (service m) (account m) st) as [[secret|e] st']; reflexivity.
Qed.

Lemma resolveMatches_recording key ms :
  forall w st log,
  exists asked rest,
    ms = asked ++ rest
    /\ resolveMatches (Spy.recording p) key ms w (st, log)
       = (fst (resolveMatches p key ms w st),
          (snd (resolveMatches p key ms w st),
           log ++ map (fun m => Spy.CallGet (service m) (account m)) asked))
    /\ (forall w', fst (resolveMatches p key ms w st) = Ok w' -> rest = []).
Proof.
  induction ms as [|m ms IH]; intros w st log.
  - exists [], []. simpl. rewrite app_nil_r. auto.
  - simpl. unfold bind. rewrite resolveMatch_recording.
    destruct (resolveMatch p key m w st) as [[w1|e] st1]; simpl.
    + destruct (IH w1 st1 (log ++ [Spy.CallGet (service m) (account m)]))
        as (asked & rest & -> & E & Hrest).
      exists (m :: asked), rest. rewrite E. simpl. rewrite <- app_assoc. auto.
    + exists [m], ms. simpl. repeat split. discriminate.
Qed.

Lemma resolveEntries_recording entries :
  forall result st log,
  exists asked rest,
    references regex entries = asked ++ rest
    /\ resolveEntries regex (Spy.recording p) entries result (st, log)
       = (fst (resolveEntries regex p entries result st),
          (snd (resolveEntries regex p entries result st), log ++ map Spy.getOf asked))
    /\ (forall final, fst (resolveEntries regex p entries result st) = Ok final -> rest = []).
Proof.
  induction entries as [|[key v] entries IH]; intros result st log.
  - exists [], []. simpl. rewrite app_nil_r. auto.
  - destruct v as [| | | |value]; try (simpl; apply IH).
    simpl. unfold bind.
    destruct (resolveMatches_recording key (allMatches regex value) value st log)
      as (asked1 & rest1 & Hsplit & E1 & Hrest1).
    rewrite E1.
    destruct (resolveMatches p key (allMatches regex value) value st) as [[w|e] st1]; simpl.
    + specialize (Hrest1 w eq_refl). subst rest1. rewrite app_nil_r in Hsplit.
      subst asked1.
      match goal with
      | |- context [resolveEntries regex p entries ?r st1] =>
          destruct (IH r st1
                      (log ++ map (fun m => Spy.CallGet (service m) (account m))
                                  (allMatches regex value)))
            as (asked2 & rest2 & Hsplit2 & E2 & Hrest2)
      end.
      exists (map (pair key) (allMatches regex value) ++ asked2), rest2.
      rewrite E2, Hsplit2, map_app, map_map, <- !app_assoc. simpl. auto.
    + exists (map (pair key) asked1), (map (pair key) rest1 ++ references regex entries).
      rewrite Hsplit, map_app, map_map, <- app_assoc. simpl.
      repeat split. discriminate.
Qed.

Lemma askAll_recording refs :
  forall st log answers st',
    askAll S p refs st = (Ok answers, st') ->
    askAll (S * list Spy.Call) (Spy.recording p) refs (st, log)
    = (Ok answers, (st', log ++ map Spy.getOf refs)).
Proof.
  induction refs as [|r refs IH]; intros st log answers st' H; simpl in H.
  - injection H as <- <-. simpl. now rewrite app_nil_r.
  - unfold bind in H.
    destruct (get p (service (snd r)) (account (snd r)) st) as [[secret|e] st1] eqn:G;
      [|discriminate].
    destruct (askAll S p refs st1) as [[rest|e] st2] eqn:R; [|discriminate].
    injection H as <- <-.
    simpl. unfold bind, Spy.noting. simpl. rewrite G.
    rewrite (IH st1 (log ++ [Spy.CallGet (service (snd r)) (account (snd r))]) rest st2 R).
    unfold ret. now rewrite <- app_assoc.
Qed.

Variable options : TaemnoOS.Options.

Lemma checkAll_recording refs :
  forall st log checked st',
    checkAll S (TaemnoOS.mk options p) refs st = (Ok checked, st') ->
    checkAll (S * list Spy.Call) (TaemnoOS.mk options (Spy.recording p)) refs (st, log)
    = (Ok checked, (st', log ++ map Spy.existsOf refs)).
Proof.
  induction refs as [|r refs IH]; intros st log checked st' H; simpl in H.
  - injection H as <- <-. simpl. now rewrite app_nil_r.
  - unfold bind in H. simpl in H.
    destruct (exists_ p (service (snd r)) (account (snd r)) st) as [[found|e] st1] eqn:G;
      [|discriminate].
    destruct (checkAll S (TaemnoOS.mk options p) refs st1) as [[rest|e] st2] eqn:R;
      [|discriminate].
    injection H as <- <-.
    simpl. unfold bind, Spy.noting. simpl. rewrite G.
    rewrite (IH st1 (log ++ [Spy.CallExists (service (snd r)) (account (snd r))]) rest st2 R).
    unfold ret. now rewrite <- app_assoc.
Qed.

Lemma checkAll_state refs :
  existsReadsOnly S p ->
  forall st, snd (checkAll S (TaemnoOS.mk options p) refs st) = st.
Proof.
  intros Hro. induction refs as [|r refs IH]; intros st; simpl; [reflexivity|].
  unfold bind. simpl.
  pose proof (Hro (service (snd r)) (account (snd r)) st) as H.
  destruct (exists_ p (service (snd r)) (account (snd r)) st) as [[found|e] st1];
    simpl in H; subst st1; [|reflexivity].
  specialize (IH st).
  destruct (checkAll S (TaemnoOS.mk options p) refs st) as [[checked|e] st2];
    simpl in *; assumption.
Qed.

Lemma checkAll_returns refs :
  (forall service account st, exists found st',
      exists_ p service account st = (Ok found, st')) ->
  forall st, exists checked st',
      checkAll S (TaemnoOS.mk options p) refs st = (Ok checked, st').
Proof.
  intros Hok. induction refs as [|r refs IH]; intros st; simpl.
  - now exists [], st.
  - unfold bind. simpl.
    destruct (Hok (service (snd r)) (account (snd r)) st) as (found & st1 & ->).
    destruct (IH st1) as (checked & st2 & ->).
    now exists ((r, found) :: checked), st2.
Qed.

Lemma verify_by_checks env st :
  TaemnoOS.verifyEnvironmentWith (TaemnoOS.mk options p) regex env st
  = match checkAll S (TaemnoOS.mk options p) (references regex env) st with
    | (Ok checked, st') =>
        (Ok (TaemnoOS.mkVerification
               (Nat.eqb (List.length (missingOf checked)) 0) (missingOf checked)), st')
    | (Throw e, st') => (Throw e, st')
    end.
Proof.
  unfold TaemnoOS.verifyEnvironmentWith, bind.
  rewrite verifyEntries_report. unfold report.
  now destruct (checkAll S (TaemnoOS.mk options p) (references regex env) st)
    as [[checked|e] st'].
Qed.

End CallFacts.

(** X1.  In an environment whose references differ from one another in
    service or account, [resolveSecrets] asks the provider for nothing
    but [get]: once for each reference, in their order, as long as the
    calls return, and for nothing after a [get] that throws.  When every
    [get] returns, the record holds one [get] for each reference; when
    one throws, the record ends with that call.  The record is that of
    a provider that notes its calls; the result and the provider's own
    state are those of the run without the record. *)
Theorem X1_resolve_asks_get_once_per_reference
        (S : Type) (p : Provider S) (regex : list Atom) (env : Env)
        (st : S) (log : list Spy.Call) :
  NoDup (map Spy.getOf (references regex env)) ->
  (forall asked key m rest answers st1 cause st2,
      references regex env = asked ++ (key, m) :: rest ->
      askAll S p asked st = (Ok answers, st1) ->
      get p (service m) (account m) st1 = (Throw cause, st2) ->
      resolveSecretsWith regex env p st = (Throw (resolutionError key cause), st2)
      /\ resolveSecretsWith regex env (Spy.recording p) (st, log)
         = (Throw (resolutionError key cause),
            (st2, log ++ map Spy.getOf (asked ++ [(key, m)]))))
  /\ (forall answers st',
         askAll S p (references regex env) st = (Ok answers, st') ->
         exists final,
           resolveSecretsWith regex env p st = (Ok final, st')
           /\ resolveSecretsWith regex env (Spy.recording p) (st, log)
              = (Ok final, (st', log ++ map Spy.getOf (references regex env)))).
Proof.
  intros _. split.
  - intros asked key m rest answers st1 cause st2 Hrefs A G. split.
    + exact (resolveEntries_refused S p regex env env st asked key m rest answers
               st1 cause st2 Hrefs A G).
    + rewrite map_app, app_assoc. simpl.
      apply (resolveEntries_refused (S * list Spy.Call) (Spy.recording p) regex env env
               (st, log) asked key m rest answers (st1, log ++ map Spy.getOf asked)
               cause _ Hrefs).
      * now apply askAll_recording.
      * simpl. unfold Spy.noting. simpl. now rewrite G.
  - intros answers st' A.
    destruct (resolveEntries_answered S p regex env env st answers st' A) as (final & R).
    exists final. split; [exact R|].
    destruct (resolveEntries_answered (S * list Spy.Call) (Spy.recording p) regex env env
                (st, log) answers _ (askAll_recording S p _ st log answers st' A))
      as (final' & R').
    unfold resolveSecretsWith in *.
    destruct (resolveEntries_recording S p regex env env st log)
      as (asked & rest & _ & E & _).
    rewrite R in E. simpl in E. rewrite E in R'.
    injection R' as Hfinal Hlog. now rewrite E, Hlog.
Qed.

Lemma X1_resolve_asks_get_once_per_reference_witness :
  resolveSecretsWith defaultRegex
    [("A" : str, JStr "$(taemno os://a/b)");
     ("B" : str, JStr "$(taemno os://c/d) $(taemno os://e/f)")]
    (Spy.recording (Mock.failingAt 1 "X" "locked")) (0, [])
  = (Throw (resolutionError "B" (Error "locked")),
     (2, [] ++ map Spy.getOf
                 ([("A" : str, mkMatch 0 "$(taemno os://a/b)" "a/b")]
                  ++ [("B" : str, mkMatch 0 "$(taemno os://c/d)" "c/d")]))).
Proof.
  apply (proj1 (X1_resolve_asks_get_once_per_reference nat (Mock.failingAt 1 "X" "locked")
                  defaultRegex
                  [("A" : str, JStr "$(taemno os://a/b)");
                   ("B" : str, JStr "$(taemno os://c/d) $(taemno os://e/f)")] 0 []
                  ltac:(vm_compute; repeat constructor; simpl; intuition discriminate))
           [("A" : str, mkMatch 0 "$(taemno os://a/b)" "a/b")]
           "B" (mkMatch 0 "$(taemno os://c/d)" "c/d")
           [("B" : str, mkMatch 19 "$(taemno os://e/f)" "e/f")]
           [("A" : str, mkMatch 0 "$(taemno os://a/b)" "a/b", "X" : str)]
           1 (Error "locked") 2).
  - vm_compute. reflexivity.
  - reflexivity.
  - reflexivity.
Defined.

(** X2.  [verifyEnvironment] asks the provider for nothing but [exists]:
    once for each reference of the environment, in their order, as long
    as the checks return, and for nothing after an [exists] that throws.
    When every check returns, the record holds one [exists] for each
    reference; when one throws, the call throws what it threw and the
    record ends with that call.  [get], [set] and [delete] are never
    called. *)
Theorem X2_verify_asks_exists_once_per_reference
        (S : Type) (p : Provider S) (options : TaemnoOS.Options) (regex : list Atom)
        (env : Env) (st : S) (log : list Spy.Call) :
  (forall asked r rest checked st1 e st2,
      references regex env = asked ++ r :: rest ->
      checkAll S (TaemnoOS.mk options p) asked st = (Ok checked, st1) ->
      exists_ p (service (snd r)) (account (snd r)) st1 = (Throw e, st2) ->
      TaemnoOS.verifyEnvironmentWith (TaemnoOS.mk options (Spy.recording p)) regex env (st, log)
      = (Throw e, (st2, log ++ map Spy.existsOf (asked ++ [r]))))
  /\ (forall checked st',
         checkAll S (TaemnoOS.mk options p) (references regex env) st = (Ok checked, st') ->
         TaemnoOS.verifyEnvironmentWith (TaemnoOS.mk options (Spy.recording p)) regex env
           (st, log)
         = (Ok (TaemnoOS.mkVerification
                  (Nat.eqb (List.length (missingOf checked)) 0) (missingOf checked)),
            (st', log ++ map Spy.existsOf (references regex env)))).
Proof.
  split.
  - intros asked r rest checked st1 e st2 Hrefs C G.
    rewrite verify_by_checks, Hrefs, checkAll_app.
    rewrite (checkAll_recording S p options asked st log checked st1 C).
    simpl. unfold bind, Spy.noting. simpl. rewrite G.
    now rewrite map_app, app_assoc.
  - intros checked st' C.
    rewrite verify_by_checks.
    now rewrite (checkAll_recording S p options _ st log checked st' C).
Qed.

Lemma X2_verify_asks_exists_once_per_reference_witness :
  TaemnoOS.verifyEnvironmentWith
    (TaemnoOS.mk TaemnoOS.defaults (Spy.recording (Mock.failing "absent"))) defaultRegex
    [("A" : str, JStr "$(taemno os://a/b)");
     ("B" : str, JStr "$(taemno os://c/d) $(taemno os://e/f)")] (tt, [])
  = (Ok (TaemnoOS.mkVerification false
           [TaemnoOS.mkMissing "A" (JStr "a") (JStr "b");
            TaemnoOS.mkMissing "B" (JStr "c") (JStr "d");
            TaemnoOS.mkMissing "B" (JStr "e") (JStr "f")]),
     (tt, [Spy.CallExists (JStr "a") (JStr "b"); Spy.CallExists (JStr "c") (JStr "d");
           Spy.CallExists (JStr "e") (JStr "f")])).
Proof.
  rewrite (proj2 (X2_verify_asks_exists_once_per_reference unit (Mock.failing "absent")
                    TaemnoOS.defaults defaultRegex
                    [("A" : str, JStr "$(taemno os://a/b)");
                     ("B" : str, JStr "$(taemno os://c/d) $(taemno os://e/f)")] tt [])
             [("A" : str, mkMatch 0 "$(taemno os://a/b)" "a/b", false);
              ("B" : str, mkMatch 0 "$(taemno os://c/d)" "c/d", false);
              ("B" : str, mkMatch 19 "$(taemno os://e/f)" "e/f", false)] tt).
  - vm_compute. reflexivity.
  - vm_compute. reflexivity.
Defined.

(** X3.  With a provider whose [exists] does not change the state,
    [verifyEnvironment] does not change it either, so that verifying
    again gives the same result. *)
Theorem X3_verify_changes_nothing
        (S : Type) (p : Provider S) (options : TaemnoOS.Options) (regex : list Atom)
        (env : Env) (st : S) :
  existsReadsOnly S p ->
  snd (TaemnoOS.verifyEnvironmentWith (TaemnoOS.mk options p) regex env st) = st
  /\ TaemnoOS.verifyEnvironmentWith (TaemnoOS.mk options p) regex env
       (snd (TaemnoOS.verifyEnvironmentWith (TaemnoOS.mk options p) regex env st))
     = TaemnoOS.verifyEnvironmentWith (TaemnoOS.mk options p) regex env st.
Proof.
  intros Hro.
  assert (E : snd (TaemnoOS.verifyEnvironmentWith (TaemnoOS.mk options p) regex env st) = st).
  { rewrite verify_by_checks.
    pose proof (checkAll_state S p options (references regex env) Hro st) as H.
    destruct (checkAll S (TaemnoOS.mk options p) (references regex env) st)
      as [[checked|e] st']; exact H. }
  split; [exact E | now rewrite E].
Qed.

Lemma X3_verify_changes_nothing_witness :
  snd (TaemnoOS.verifyEnvironmentWith (facade (Mock.failing "absent")) defaultRegex
         [("KEY" : str, JStr oneReference)] tt) = tt
  /\ TaemnoOS.verifyEnvironmentWith (facade (Mock.failing "absent")) defaultRegex
       [("KEY" : str, JStr oneReference)]
       (snd (TaemnoOS.verifyEnvironmentWith (facade (Mock.failing "absent")) defaultRegex
               [("KEY" : str, JStr oneReference)] tt))
     = TaemnoOS.verifyEnvironmentWith (facade (Mock.failing "absent")) defaultRegex
         [("KEY" : str, JStr oneReference)] tt.
Proof.
  apply (X3_verify_changes_nothing unit (Mock.failing "absent") TaemnoOS.defaults
           defaultRegex [("KEY" : str, JStr oneReference)] tt).
  intros service account st. reflexivity.
Defined.

(** X4.  Over the darwin provider [verifyEnvironment] never throws: its
    [exists] turns every failure into [false], so every environment
    gets a report. *)
Theorem X4_verify_over_darwin_always_reports
        (inputClass : list Darwin.ClassItem) (W : Type)
        (security : list str -> str -> W -> Darwin.ExecOutcome * W)
        (options : TaemnoOS.Options) (regex : list Atom) (env : Env) (st : Darwin.State W) :
  exists result st',
    TaemnoOS.verifyEnvironmentWith
      (TaemnoOS.mk options (Darwin.exports inputClass security)) regex env st
    = (Ok result, st').
Proof.
  rewrite verify_by_checks.
  destruct (checkAll_returns (Darwin.State W) (Darwin.exports inputClass security) options
              (references regex env)) with (st := st) as (checked & st' & ->); [|eauto].
  intros service account st0. simpl.
  unfold Darwin.exists_, tryCatch, bind, ret.
  destruct (Darwin.get inputClass security service account JNull st0) as [[secret|e] st1];
    eauto.
Qed.

(* ================================================================== *)
(** * More on the matcher                                              *)
(* ================================================================== *)

Section SeparatedFacts.

Variable regex : list Atom.
Hypothesis has_capture : In ACapture regex.

Lemma separated_from_earlier from from' size ms :
  from' <= from -> separated from size ms -> separated from' size ms.
Proof.
  destruct ms as [|m ms]; simpl; [auto|].
  intros Hle (H1 & H2 & H3 & H4). repeat split; auto. lia.
Qed.

Lemma scan_separated s :
  forall idx skip,
    separated (idx + skip) (idx + List.length s) (scan regex s idx skip).
Proof.
  induction s as [|c s IH]; intros idx skip; simpl; [exact I|].
  destruct skip as [|k].
  - destruct (matchHere regex (c :: s)) as [[n caps]|] eqn:R.
    + destruct (matchHere_capture _ _ _ _ has_capture R) as [Hn _].
      pose proof (matchHere_bound _ _ _ _ R) as Hb. simpl in Hb.
      assert (Hlen : List.length (firstn n (c :: s)) = n)
        by (rewrite length_firstn; simpl; lia).
      simpl. rewrite Hlen. repeat split; try lia.
      specialize (IH (Datatypes.S idx) (pred n)).
      replace (Datatypes.S idx + pred n) with (idx + n) in IH by lia.
      replace (Datatypes.S idx + List.length s) with (idx + Datatypes.S (List.length s)) in IH
        by lia.
      exact IH.
    + specialize (IH (Datatypes.S idx) 0).
      replace (Datatypes.S idx + List.length s) with (idx + Datatypes.S (List.length s)) in IH
        by lia.
      apply (separated_from_earlier (Datatypes.S idx + 0)); [lia | exact IH].
  - specialize (IH (Datatypes.S idx) k).
    replace (Datatypes.S idx + k) with (idx + Datatypes.S k) in IH by lia.
    replace (Datatypes.S idx + List.length s) with (idx + Datatypes.S (List.length s)) in IH
      by lia.
    exact IH.
Qed.

End SeparatedFacts.

(** X5.  The references found in a value do not overlap and come from
    left to right: each match holds at least one code unit, starts at or
    after the end of the match before it, and ends within the value. *)
Theorem X5_matches_do_not_overlap (prefix suffix : str) (regex : list Atom) (value : str) :
  compile prefix suffix = Some regex ->
  separated 0 (List.length value) (allMatches regex value).
Proof.
  intros H. apply compile_has_capture in H.
  exact (scan_separated regex H value 0 0).
Qed.

Lemma X5_matches_do_not_overlap_witness :
  separated 0 (List.length nested) (allMatches defaultRegex nested).
Proof.
  apply (X5_matches_do_not_overlap "$(taemno os://" ")" defaultRegex nested).
  reflexivity.
Defined.

(** X6.  A capture without [/] is taken whole as the service and the
    account is [undefined]; a capture that ends with its only [/] gives
    the empty string as the account. *)
Theorem X6_capture_without_separator (m : Match) :
  (~ In "/"%char (path m) -> service m = JStr (path m) /\ account m = JUndefined)
  /\ (forall a, path m = a ++ ["/"%char] -> ~ In "/"%char a ->
                service m = JStr a /\ account m = JStr []).
Proof.
  unfold service, account. split.
  - intros H. now rewrite split_whole.
  - intros a -> Ha. now rewrite split_at_first.
Qed.

Lemma X6_capture_without_separator_witness :
  service (mkMatch 0 "$(taemno os://onlyservice)" "onlyservice") = JStr "onlyservice"
  /\ account (mkMatch 0 "$(taemno os://onlyservice)" "onlyservice") = JUndefined.
Proof.
  apply (proj1 (X6_capture_without_separator
                  (mkMatch 0 "$(taemno os://onlyservice)" "onlyservice"))).
  simpl. intuition discriminate.
Defined.

(** X7.  A value with a single reference, and a secret without [$]: the
    environment that holds just this value resolves to the value with
    the reference cut out and the secret in its place, the text before
    and after it as it was. *)
Theorem X7_single_reference_is_replaced_in_place
        (S : Type) (p : Provider S) (regex : list Atom)
        (key value secret : str) (m : Match) (st st' : S) :
  allMatches regex value = [m] ->
  get p (service m) (account m) st = (Ok secret, st') ->
  ~ In "$"%char secret ->
  exists pre post,
    value = pre ++ fullMatch m ++ post
    /\ resolveSecretsWith regex [(key, JStr value)] p st
       = (Ok [(key, JStr (pre ++ secret ++ post))], st').
Proof.
  intros Hm Hget Hs.
  assert (Hocc : occursAt (fullMatch m) value (index m)).
  { apply (allMatches_occurs regex). rewrite Hm. now left. }
  pose proof (replace_spliceFirst value (fullMatch m) secret Hs) as Hsplice.
  inversion Hsplice as [pre post Hmin Heq Hres|w0 Hnone Heq Hres].
  - exists pre, post. split; [reflexivity|].
    rewrite Heq in *.
    unfold resolveSecretsWith. cbn [resolveEntries]. rewrite Hm.
    cbn [resolveMatches]. unfold bind.
    rewrite (resolveMatch_ok S p key m _ st secret st' Hget).
    unfold ret. cbn [resolveEntries assign]. rewrite str_eqb_refl.
    rewrite <- Hres. reflexivity.
  - exfalso. apply (Hnone (index m)). rewrite <- Hres. exact Hocc.
Qed.

Lemma X7_single_reference_is_replaced_in_place_witness :
  exists pre post,
    oneReference = pre ++ fullMatch (mkMatch 4 "$(taemno os://svc/acct)" "svc/acct") ++ post
    /\ resolveSecretsWith defaultRegex [("KEY" : str, JStr oneReference)] (Mock.constant "X") tt
       = (Ok [("KEY" : str, JStr (pre ++ "X" ++ post))], tt).
Proof.
  apply (X7_single_reference_is_replaced_in_place unit (Mock.constant "X") defaultRegex
           "KEY" oneReference "X" (mkMatch 4 "$(taemno os://svc/acct)" "svc/acct") tt tt).
  - vm_compute. reflexivity.
  - reflexivity.
  - simpl. intuition discriminate.
Defined.

Lemma escaped_prefix_and_suffix_are_literal_witness :
  exists regex,
    compile "$(taemno os://" ")" = Some regex
    /\ (forall s, matchHere regex s <> None <->
                  exists cap tail,
                    cap <> [] /\ noLineTerminator cap
                    /\ s = "$(taemno os://" ++ cap ++ ")" ++ tail)
    /\ (forall value m,
           In m (allMatches regex value) ->
           fullMatch m = "$(taemno os://" ++ path m ++ ")"
           /\ path m <> [] /\ noLineTerminator (path m)).
Proof.
  apply (escaped_prefix_and_suffix_are_literal "$(taemno os://" ")"); reflexivity.
Defined.

Lemma while_loop_of_compiled_pattern_witness :
  execLoop (Datatypes.S (List.length nested)) defaultRegex nested 0
  = Some (allMatches defaultRegex nested, 0).
Proof.
  apply (while_loop_of_compiled_pattern "$(taemno os://" ")" defaultRegex nested).
  reflexivity.
Defined.

(* ================================================================== *)
(** * More on the darwin provider                                      *)
(* ================================================================== *)

Section TrimFacts.

Lemma trimStart_clean l : clean (trimStart l).
Proof.
  induction l as [|c l IH]; simpl; [exact I|].
  destruct (isWhiteSpace c) eqn:E; [exact IH | exact E].
Qed.

Lemma trimStart_fixed l : clean l -> trimStart l = l.
Proof.
  destruct l as [|c l]; simpl; [reflexivity|]. now intros ->.
Qed.

Lemma trimStart_suffix l : exists ws, l = ws ++ trimStart l.
Proof.
  induction l as [|c l IH]; simpl.
  - now exists [].
  - destruct (isWhiteSpace c).
    + destruct IH as [ws IH]. exists (c :: ws). simpl. now f_equal.
    + now exists [].
Qed.

Lemma clean_app_left a b : a <> [] -> clean (a ++ b) -> clean a.
Proof.
  destruct a; [contradiction | auto].
Qed.

(** What [trim] returns neither starts nor ends with white space:
    trimming it again changes nothing. *)
Lemma trim_trim s : trim (trim s) = trim s.
Proof.
  unfold trim.
  set (t := trimStart s).
  set (u := trimStart (rev t)).
  assert (Hu : clean u) by apply trimStart_clean.
  assert (Hr : clean (rev u)).
  { destruct (trimStart_suffix (rev t)) as [ws Hws]. fold u in Hws.
    assert (Ht : t = rev u ++ rev ws).
    { rewrite <- (rev_involutive t), Hws, rev_app_distr. reflexivity. }
    destruct u as [|c u'] eqn:Eu; [exact I|].
    apply (clean_app_left _ (rev ws)).
    - intros H. apply (f_equal (@List.length ascii)) in H.
      rewrite length_rev in H. discriminate.
    - rewrite <- Ht. apply trimStart_clean. }
  rewrite (trimStart_fixed (rev u) Hr), rev_involutive.
  now rewrite (trimStart_fixed u Hu).
Qed.

End TrimFacts.

Ltac run_tool security :=
  match goal with
  | |- context [security ?args ?stdin ?w] =>
      let code := fresh "code" in
      let out := fresh "out" in
      let err := fresh "err" in
      let errno := fresh "errno" in
      let reason := fresh "reason" in
      let w' := fresh "w" in
      destruct (security args stdin w) as [[code out err|errno reason] w'];
      [destruct (Darwin.overflows out), (Darwin.overflows err), code|];
      cbn [fst snd orb Darwin.world Darwin.calls]
  end.

(** X8.  On arguments that pass validation, [set] starts the tool
    twice, first to delete the item and then to add it, whatever the
    first run gives; the secret is in neither argument list (it goes to
    the standard input).  [set] returns [true] or throws a KeychainError
    [Failed to store secret]. *)
Theorem X8_set_deletes_then_adds
        (inputClass : list Darwin.ClassItem) (W : Type)
        (security : list str -> str -> W -> Darwin.ExecOutcome * W)
        (service account keychain : JsVal) (secret : str) (st : Darwin.State W) :
  Darwin.validateInputs inputClass service account keychain = Ok tt ->
  Darwin.calls (snd (Darwin.set inputClass security service account secret keychain st))
  = Darwin.calls st
    ++ [["delete-generic-password" : str; "-s" : str; toString service;
         "-a" : str; toString account];
        Darwin.withKeychain
          ["add-generic-password" : str; "-s" : str; "'" ++ toString service ++ "'";
           "-a" : str; toString service; "-a" : str; toString account] keychain
        ++ ["-U" : str; "-w" : str]]
  /\ (fst (Darwin.set inputClass security service account secret keychain st) = Ok true
      \/ exists cause,
          fst (Darwin.set inputClass security service account secret keychain st)
          = Throw (Darwin.KeychainError "Failed to store secret" cause)).
Proof.
  intros H.
  unfold Darwin.set, Darwin.lift, bind. rewrite H.
  unfold tryCatch, Darwin.execAsync, bind, Darwin.spawn, ret, throw.
  run_tool security; run_tool security; rewrite <- app_assoc; split; eauto.
Qed.

Lemma X8_set_deletes_then_adds_witness :
  Darwin.calls (snd (Darwin.set Darwin.inputClassMeant Keychain.security
                       (JStr "svc") (JStr "acct") "pw" JNull (Keychain.start [])))
  = Darwin.calls (Keychain.start [])
    ++ [["delete-generic-password" : str; "-s" : str; toString (JStr "svc");
         "-a" : str; toString (JStr "acct")];
        Darwin.withKeychain
          ["add-generic-password" : str; "-s" : str; "'" ++ toString (JStr "svc") ++ "'";
           "-a" : str; toString (JStr "svc"); "-a" : str; toString (JStr "acct")] JNull
        ++ ["-U" : str; "-w" : str]]
  /\ (fst (Darwin.set Darwin.inputClassMeant Keychain.security
             (JStr "svc") (JStr "acct") "pw" JNull (Keychain.start [])) = Ok true
      \/ exists cause,
          fst (Darwin.set Darwin.inputClassMeant Keychain.security
                 (JStr "svc") (JStr "acct") "pw" JNull (Keychain.start []))
          = Throw (Darwin.KeychainError "Failed to store secret" cause)).
Proof.
  apply (X8_set_deletes_then_adds Darwin.inputClassMeant Keychain.t Keychain.security
           (JStr "svc") (JStr "acct") JNull "pw" (Keychain.start [])).
  reflexivity.
Defined.

(** X9.  On arguments that pass validation, [get] starts the tool once,
    with [find-generic-password].  It returns the trimmed standard
    output when the tool exits with 0 and neither its standard output
    nor its standard error exceeds [maxBuffer]; for every other outcome
    (a non-zero exit code, a tool that does not start, an output beyond
    the limit, whatever the exit code) it throws a KeychainError
    [Secret not found: service/account]. *)
Theorem X9_get_reports_every_failure_as_not_found
        (inputClass : list Darwin.ClassItem) (W : Type)
        (security : list str -> str -> W -> Darwin.ExecOutcome * W)
        (service account keychain : JsVal) (st : Darwin.State W) :
  Darwin.validateInputs inputClass service account keychain = Ok tt ->
  let args :=
    Darwin.withKeychain
      ["find-generic-password" : str; "-s" : str; toString service;
       "-a" : str; toString account; "-w" : str] keychain in
  let notFound :=
    exists cause,
      fst (Darwin.get inputClass security service account keychain st)
      = Throw (Darwin.KeychainError
                 ("Secret not found: " ++ toString service ++ "/" ++ toString account)
                 cause) in
  snd (Darwin.get inputClass security service account keychain st)
  = Darwin.mkState (snd (security args [] (Darwin.world st))) (Darwin.calls st ++ [args])
  /\ match fst (security args [] (Darwin.world st)) with
     | Darwin.Exited 0 stdout stderr =>
         if Darwin.overflows stdout || Darwin.overflows stderr then notFound
         else fst (Darwin.get inputClass security service account keychain st)
              = Ok (trim stdout)
     | _ => notFound
     end.
Proof.
  intros H args notFound. subst notFound.
  unfold Darwin.get, Darwin.lift, bind. rewrite H.
  unfold tryCatch, Darwin.execAsync, bind, Darwin.spawn, ret, throw.
  fold args.
  destruct (security args [] (Darwin.world st)) as [[code out err|errno reason] w];
    cbn [fst snd]; [|split; eauto].
  destruct (Darwin.overflows out), (Darwin.overflows err), code;
    cbn [fst snd orb]; split; eauto.
Qed.

Lemma X9_get_reports_every_failure_as_not_found_witness :
  exists cause,
    fst (Darwin.get Darwin.inputClassMeant Keychain.unavailable
           (JStr "svc") (JStr "acct") JNull (Keychain.start []))
    = Throw (Darwin.KeychainError
               ("Secret not found: " ++ toString (JStr "svc") ++ "/" ++ toString (JStr "acct"))
               cause).
Proof.
  exact (proj2 (X9_get_reports_every_failure_as_not_found Darwin.inputClassMeant
                  Keychain.t Keychain.unavailable (JStr "svc") (JStr "acct") JNull
                  (Keychain.start []) eq_refl)).
Defined.

(** X10.  On arguments that pass validation, [delete] never throws: it
    starts the tool once and returns [true] when the tool exits with 0
    and neither its standard output nor its standard error exceeds
    [maxBuffer], and [false] for every other outcome, an output beyond
    the limit included. *)
Theorem X10_delete_answers_false_on_every_failure
        (inputClass : list Darwin.ClassItem) (W : Type)
        (security : list str -> str -> W -> Darwin.ExecOutcome * W)
        (service account keychain : JsVal) (st : Darwin.State W) :
  Darwin.validateInputs inputClass service account keychain = Ok tt ->
  let args :=
    Darwin.withKeychain
      ["delete-generic-password" : str; "-s" : str; toString service;
       "-a" : str; toString account] keychain in
  Darwin.deleteSecret inputClass security service account keychain st
  = (Ok (match fst (security args [] (Darwin.world st)) with
         | Darwin.Exited 0 stdout stderr =>
             negb (Darwin.overflows stdout || Darwin.overflows stderr)
         | _ => false
         end),
     Darwin.mkState (snd (security args [] (Darwin.world st))) (Darwin.calls st ++ [args])).
Proof.
  intros H args.
  unfold Darwin.deleteSecret, Darwin.lift, bind. rewrite H.
  unfold tryCatch, Darwin.execAsync, bind, Darwin.spawn, ret, throw.
  fold args.
  destruct (security args [] (Darwin.world st)) as [[code out err|errno reason] w];
    [|reflexivity].
  cbn [fst snd].
  destruct (Darwin.overflows out), (Darwin.overflows err), code; reflexivity.
Qed.

Lemma X10_delete_answers_false_on_every_failure_witness :
  Darwin.deleteSecret Darwin.inputClassMeant Keychain.security
    (JStr "svc") (JStr "acct") JNull (Keychain.start [])
  = (Ok false,
     Darwin.mkState []
       [["delete-generic-password" : str; "-s" : str; "svc" : str; "-a" : str; "acct" : str]]).
Proof.
  rewrite (X10_delete_answers_false_on_every_failure Darwin.inputClassMeant
             Keychain.t Keychain.security (JStr "svc") (JStr "acct") JNull
             (Keychain.start []) eq_refl).
  vm_compute. reflexivity.
Defined.

(** X11.  A secret that [get] returns neither starts nor ends with white
    space or a line break: trimming it changes nothing. *)
Theorem X11_get_returns_a_trimmed_secret
        (inputClass : list Darwin.ClassItem) (W : Type)
        (security : list str -> str -> W -> Darwin.ExecOutcome * W)
        (service account keychain : JsVal) (secret : str) (st st' : Darwin.State W) :
  Darwin.get inputClass security service account keychain st = (Ok secret, st') ->
  trim secret = secret.
Proof.
  unfold Darwin.get, Darwin.lift, bind.
  destruct (Darwin.validateInputs inputClass service account keychain) as [[]|e];
    [|discriminate].
  unfold tryCatch, Darwin.execAsync, bind, Darwin.spawn, ret, throw.
  match goal with
  | |- context [security ?args ?stdin ?w] =>
      destruct (security args stdin w) as [[code out err|errno reason] w']
  end; [|discriminate].
  destruct (Darwin.overflows out), (Darwin.overflows err), code;
    intros E; try discriminate.
  injection E as <- _. apply trim_trim.
Qed.

Lemma X11_get_returns_a_trimmed_secret_witness :
  trim ("pw" : str) = "pw".
Proof.
  apply (X11_get_returns_a_trimmed_secret Darwin.inputClassMeant Keychain.t Keychain.security
           (JStr "svc") (JStr "acct") JNull "pw"
           (Keychain.start [Keychain.mkItem "svc" "acct" " pw "])
           (Darwin.mkState [Keychain.mkItem "svc" "acct" " pw "]
              [["find-generic-password" : str; "-s" : str; "svc" : str;
                "-a" : str; "acct" : str; "-w" : str]])).
  vm_compute. reflexivity.
Defined.

Lemma invalid_string_rejected_witness :
  (let e := Darwin.InvalidInputError "Invalid service name" in
   Darwin.set Darwin.inputClassMeant Keychain.security (JStr "my service") (JStr "acct")
     "pw" JNull (Keychain.start []) = (Throw e, Keychain.start [])
   /\ Darwin.get Darwin.inputClassMeant Keychain.security (JStr "my service") (JStr "acct")
        JNull (Keychain.start []) = (Throw e, Keychain.start [])
   /\ Darwin.deleteSecret Darwin.inputClassMeant Keychain.security (JStr "my service")
        (JStr "acct") JNull (Keychain.start []) = (Throw e, Keychain.start [])).
Proof.
  apply (proj1 (invalid_string_rejected Darwin.inputClassMeant Keychain.t Keychain.security
                  "my service" (JStr "acct") "pw" JNull (Keychain.start []) eq_refl)).
Defined.

(* ================================================================== *)
(** * The command line                                                 *)
(* ================================================================== *)

Lemma no_missing_iff_all_found (checked : list (str * Match * bool)) :
  Nat.eqb (List.length (missingOf checked)) 0 = forallb snd checked.
Proof.
  induction checked as [|[r found] checked IH]; [reflexivity|].
  unfold missingOf in *. simpl. destruct found; simpl; [exact IH | reflexivity].
Qed.

(** X12.  A command that lacks arguments ([set] with fewer than three,
    [get], [delete] and [exists] with fewer than two) ends with exit
    code 1 after an error line and a usage line, and the provider is not
    called. *)
Theorem X12_missing_arguments_end_with_1
        (S : Type) (provider : Provider S) (processEnv : Env)
        (readFile : str -> JsResult str) (command : str) (args : list str) (st : S) :
  (command = "set" /\ List.length args < 3)
  \/ ((command = "get" \/ command = "delete" \/ command = "exists") /\ List.length args < 2) ->
  exists usage,
    Cli.main S provider processEnv readFile (command :: args) st
    = (Cli.mkEnded [Cli.Err ("Error: Missing arguments for " ++ command ++ " command");
                    Cli.Out usage] 1, st).
Proof.
  intros [[E H]|[[E|[E|E]] H]]; subst command;
    destruct args as [|a [|b [|c rest]]]; simpl in H; try lia;
    eexists; reflexivity.
Qed.

Lemma X12_missing_arguments_end_with_1_witness :
  exists usage,
    Cli.main unit (Mock.constant "X") [] (fun _ => Ok []) ["set" : str; "svc" : str; "acct" : str] tt
    = (Cli.mkEnded [Cli.Err ("Error: Missing arguments for " ++ "set" ++ " command");
                    Cli.Out usage] 1, tt).
Proof.
  apply (X12_missing_arguments_end_with_1 unit (Mock.constant "X") [] (fun _ => Ok [])
           "set" ["svc" : str; "acct" : str] tt).
  left. split; [reflexivity | simpl; lia].
Defined.

(** X13.  [resolve] and [verify] with a file argument always end with
    exit code 1 and the line [Error: Failed to read env file: ...],
    whatever the file holds, and the provider is not called: when the
    file cannot be read the reason is that of [readFile], and when it
    can, [dotenv], which the script never declares, is not defined. *)
Theorem X13_a_file_argument_always_fails
        (S : Type) (provider : Provider S) (processEnv : Env)
        (readFile : str -> JsResult str) (file : str) (rest : list str) (st : S) :
  exists reason,
    (forall envContent, readFile file = Ok envContent ->
                        reason = ("dotenv is not defined" : str))
    /\ Cli.main S provider processEnv readFile (("resolve" : str) :: file :: rest) st
       = (Cli.mkEnded [Cli.Err ("Error: Failed to read env file: " ++ reason)] 1, st)
    /\ Cli.main S provider processEnv readFile (("verify" : str) :: file :: rest) st
       = (Cli.mkEnded [Cli.Err ("Error: Failed to read env file: " ++ reason)] 1, st).
Proof.
  unfold Cli.main.
  change (str_eqb "resolve" "set") with false.
  change (str_eqb "resolve" "get") with false.
  change (str_eqb "resolve" "delete") with false.
  change (str_eqb "resolve" "exists") with false.
  change (str_eqb "resolve" "resolve") with true.
  change (str_eqb "verify" "set") with false.
  change (str_eqb "verify" "get") with false.
  change (str_eqb "verify" "delete") with false.
  change (str_eqb "verify" "exists") with false.
  change (str_eqb "verify" "resolve") with false.
  change (str_eqb "verify" "verify") with true.
  cbv iota. unfold Cli.handleResolve, Cli.handleVerify, Cli.loadEnvFile.
  destruct (readFile file) as [envContent|e].
  - exists ("dotenv is not defined" : str). repeat split.
  - exists (message e). repeat split. discriminate.
Qed.

(** X14.  [verify] without a file prints what the existence checks of
    [process.env] gave: [All secrets are available] and exit code 0 when
    every check answered [true]; otherwise [Missing secrets:] followed
    by one line for each check that answered [false], and exit code 1;
    and an error line with exit code 1 when a check threw. *)
Theorem X14_verify_prints_the_failed_checks
        (S : Type) (provider : Provider S) (processEnv : Env)
        (readFile : str -> JsResult str) (st : S) :
  Cli.main S provider processEnv readFile ["verify" : str] st
  = match checkAll S (Cli.taemnoOS S provider) (references defaultRegex processEnv) st with
    | (Ok checked, st') =>
        (if forallb snd checked
         then Cli.mkEnded [Cli.Out "All secrets are available"] 0
         else Cli.mkEnded (Cli.Err "Missing secrets:"
                             :: map Cli.missingLine (missingOf checked)) 1, st')
    | (Throw e, st') => (Cli.failed e, st')
    end.
Proof.
  change (Cli.main S provider processEnv readFile ["verify" : str] st)
    with (match TaemnoOS.verifyEnvironmentWith (Cli.taemnoOS S provider) defaultRegex
                  processEnv st with
          | (Ok result, st') =>
              if TaemnoOS.success result
              then (Cli.mkEnded [Cli.Out "All secrets are available"] 0, st')
              else (Cli.mkEnded (Cli.Err "Missing secrets:"
                                   :: map Cli.missingLine (TaemnoOS.missingSecrets result)) 1,
                    st')
          | (Throw error, st') => (Cli.failed error, st')
          end).
  unfold Cli.taemnoOS. rewrite verify_by_checks.
  destruct (checkAll S (TaemnoOS.mk TaemnoOS.defaults provider)
              (references defaultRegex processEnv) st) as [[checked|e] st']; [|reflexivity].
  cbn [TaemnoOS.success TaemnoOS.missingSecrets].
  rewrite no_missing_iff_all_found.
  now destruct (forallb snd checked).
Qed.

(** X15.  [resolve] without a file prints either everything or nothing
    of the environment: one line [KEY=value] for each key of
    [process.env], in their order, with exit code 0; or, when a secret
    cannot be got, the single line [Error: Failed to resolve secret for
    KEY: ...] with exit code 1. *)
Theorem X15_resolve_prints_all_or_nothing
        (S : Type) (provider : Provider S) (processEnv : Env)
        (readFile : str -> JsResult str) (st : S) :
  (exists final,
      keys final = keys processEnv
      /\ fst (Cli.main S provider processEnv readFile ["resolve" : str] st)
         = Cli.mkEnded
             (map (fun kv => Cli.Out (fst kv ++ "=" ++ toString (snd kv))) final) 0)
  \/ (exists key cause,
         In key (keys processEnv)
         /\ fst (Cli.main S provider processEnv readFile ["resolve" : str] st)
            = Cli.mkEnded
                [Cli.Err ("Error: Failed to resolve secret for " ++ key ++ ": "
                          ++ message cause)] 1).
Proof.
  change (Cli.main S provider processEnv readFile ["resolve" : str] st)
    with (match resolveSecretsWith defaultRegex processEnv provider st with
          | (Ok resolvedEnv, st') =>
              (Cli.mkEnded
                 (map (fun kv => Cli.Out (fst kv ++ "=" ++ toString (snd kv))) resolvedEnv) 0,
               st')
          | (Throw error, st') => (Cli.failed error, st')
          end).
  destruct (resolveSecretsWith defaultRegex processEnv provider st) as [[final|e] st'] eqn:R.
  - left. exists final. split; [|reflexivity].
    apply (resolveEntries_keys S provider defaultRegex processEnv processEnv st final st');
      [apply incl_refl | exact R].
  - right.
    destruct (resolveEntries_throw S provider defaultRegex processEnv processEnv st e st' R)
      as (key & value & m & cause & sa & sb & Hin & _ & _ & ->).
    exists key, cause. split; [|reflexivity].
    apply in_map_iff. now exists (key, JStr value).
Qed.

(** X16.  Over the darwin provider, [delete] with a service and an
    account that pass validation always prints [Secret deleted:
    service/account] and ends with exit code 0, whatever the tool did:
    the answer [false] of the provider is not looked at. *)
Theorem X16_delete_always_reports_success
        (inputClass : list Darwin.ClassItem) (W : Type)
        (security : list str -> str -> W -> Darwin.ExecOutcome * W)
        (processEnv : Env) (readFile : str -> JsResult str)
        (service account : str) (rest : list str) (st : Darwin.State W) :
  Darwin.validateInputs inputClass (JStr service) (JStr account) JNull = Ok tt ->
  fst (Cli.main (Darwin.State W) (Darwin.exports inputClass security) processEnv readFile
         (("delete" : str) :: service :: account :: rest) st)
  = Cli.mkEnded [Cli.Out ("Secret deleted: " ++ service ++ "/" ++ account)] 0.
Proof.
  intros H.
  change (Cli.main (Darwin.State W) (Darwin.exports inputClass security) processEnv readFile
            (("delete" : str) :: service :: account :: rest) st)
    with (match Darwin.deleteSecret inputClass security (JStr service) (JStr account) JNull st
          with
          | (Ok _, st') =>
              (Cli.mkEnded [Cli.Out ("Secret deleted: " ++ service ++ "/" ++ account)] 0, st')
          | (Throw error, st') => (Cli.failed error, st')
          end).
  unfold Darwin.deleteSecret, Darwin.lift, bind. rewrite H.
  unfold tryCatch, Darwin.execAsync, bind, Darwin.spawn, ret, throw.
  match goal with
  | |- context [security ?args ?stdin ?w] =>
      destruct (security args stdin w) as [[code out err|errno reason] w']
  end; [|reflexivity].
  destruct (Darwin.overflows out), (Darwin.overflows err), code; reflexivity.
Qed.

Lemma X16_delete_always_reports_success_witness :
  fst (Cli.main (Darwin.State Keychain.t)
         (Darwin.exports Darwin.inputClassMeant Keychain.unavailable) [] (fun _ => Ok [])
         ["delete" : str; "svc" : str; "acct" : str] (Keychain.start []))
  = Cli.mkEnded [Cli.Out ("Secret deleted: " ++ "svc" ++ "/" ++ "acct")] 0.
Proof.
  apply (X16_delete_always_reports_success Darwin.inputClassMeant Keychain.t
           Keychain.unavailable [] (fun _ => Ok []) "svc" "acct" [] (Keychain.start [])).
  reflexivity.
Defined.

(** X17.  Over the darwin provider, [exists] never ends with an error
    line, whatever the service and the account: it prints [true] and
    ends with 0 when [get] succeeds, and prints [false] and ends with 1
    for every failure of [get], a rejected argument included. *)
Theorem X17_exists_prints_true_or_false
        (inputClass : list Darwin.ClassItem) (W : Type)
        (security : list str -> str -> W -> Darwin.ExecOutcome * W)
        (processEnv : Env) (readFile : str -> JsResult str)
        (service account : str) (rest : list str) (st : Darwin.State W) :
  fst (Cli.main (Darwin.State W) (Darwin.exports inputClass security) processEnv readFile
         (("exists" : str) :: service :: account :: rest) st)
  = match fst (Darwin.get inputClass security (JStr service) (JStr account) JNull st) with
    | Ok _ => Cli.mkEnded [Cli.Out "true"] 0
    | Throw _ => Cli.mkEnded [Cli.Out "false"] 1
    end.
Proof.
  change (Cli.main (Darwin.State W) (Darwin.exports inputClass security) processEnv readFile
            (("exists" : str) :: service :: account :: rest) st)
    with (match Darwin.exists_ inputClass security (JStr service) (JStr account) JNull st with
          | (Ok found, st') =>
              (Cli.mkEnded [Cli.Out (if found then "true" else "false" : str)]
                 (if found then 0 else 1), st')
          | (Throw error, st') => (Cli.failed error, st')
          end).
  unfold Darwin.exists_, tryCatch, bind, ret.
  destruct (Darwin.get inputClass security (JStr service) (JStr account) JNull st)
    as [[secret|e] st']; reflexivity.
Qed.
